(** * B6Tok: the response cache, the record normaliser, the library tree
    builder and the query handlers of [src/api/index.js]

    The development is a shallow embedding of the JavaScript source.
    [src/unnamed/part_000] is the same server without the library route:
    its [getCached], [setCache], [/api/search] and [/api/trending] are
    textually those of [src/api/index.js], so one embedding covers both. *)

From Stdlib Require Import ZArith Ascii Sorted Permutation.
From stdpp Require Import gmap strings list pretty.

Local Open Scope string_scope.
Local Open Scope list_scope.
Local Open Scope Z_scope.
Set Warnings "-register-all".

(** ** JavaScript values

    Upstream payloads, cached results and response bodies are dynamically
    typed.  Numbers that occur in this program are counts, durations and
    millisecond timestamps; they are embedded as integers.  A string is a
    sequence of code units, one [ascii] standing for each, so that
    [String.length] is what [.length] reads.  An object is the list of its
    own properties in insertion order. *)

Inductive value : Type :=
| VUndef
| VNull
| VBool (b : bool)
| VNum (n : Z)
| VStr (s : string)
| VArr (elems : list value)
| VObj (props : list (string * value)).

(** [!!v] of JavaScript. *)
Definition truthy (v : value) : bool :=
  match v with
  | VUndef | VNull => false
  | VBool b => b
  | VNum n => negb (n =? 0)
  | VStr s => negb (String.eqb s "")
  | VArr _ | VObj _ => true
  end.

(** [a || b]. *)
Definition js_or (a b : value) : value := if truthy a then a else b.

Definition nullish (v : value) : bool :=
  match v with VUndef | VNull => true | _ => false end.

Fixpoint lookup_prop (k : string) (ps : list (string * value)) : value :=
  match ps with
  | [] => VUndef
  | (k', v) :: ps' => if String.eqb k k' then v else lookup_prop k ps'
  end.

(** [v.k] on a value that is neither [null] nor [undefined].  The property
    names read by the program are data fields, none of them is inherited
    from a prototype, so a primitive or an array yields [undefined]. *)
Definition get (k : string) (v : value) : value :=
  match v with
  | VObj ps => lookup_prop k ps
  | _ => VUndef
  end.

(** [v?.k]. *)
Definition get_opt (k : string) (v : value) : value :=
  if nullish v then VUndef else get k v.

(** Assignment of one own property: an existing key keeps its position. *)
Fixpoint set_prop (k : string) (x : value) (ps : list (string * value))
  : list (string * value) :=
  match ps with
  | [] => [(k, x)]
  | (k', v) :: ps' =>
      if String.eqb k k' then (k', x) :: ps' else (k', v) :: set_prop k x ps'
  end.

Fixpoint chars (s : string) : list value :=
  match s with
  | EmptyString => []
  | String c s' => VStr (String c EmptyString) :: chars s'
  end.

Definition indexed (l : list value) : list (string * value) :=
  imap (fun i x => (pretty i, x)) l.

(** Own enumerable properties copied by an object spread [{...v}]. *)
Definition own_props (v : value) : list (string * value) :=
  match v with
  | VObj ps => ps
  | VArr l => indexed l
  | VStr s => indexed (chars s)
  | _ => []
  end.

(** ** The world the server runs in *)

(** An entry of [cache]: [{ data, expiry }]. *)
Record item : Type := Item { data : value; expiry : Z }.

(** What a thrown error exposes to the [catch] blocks: [err.code],
    [err.response?.status] and [err.message]. *)
Record exn : Type := Exn {
  err_code : option string;
  err_status : option Z;
  err_message : string }.

Definition TypeError (msg : string) : exn := Exn None None msg.

(** Observable interactions, recorded in the order they happen. *)
Inductive event : Type :=
| CacheGet (key : string)
| CacheDelete (key : string)
| CacheSet (key : string)
| UpstreamGet (url : string) (params : list (string * value))
| ConsoleError (msg : string).

(** [cache] is the module-level [Map]; [clock] is what [Date.now()] returns. *)
Record world : Type := World {
  cache : gmap string item;
  clock : Z;
  trace : list event }.

Definition emit (e : event) (w : world) : world :=
  World (cache w) (clock w) (trace w ++ [e]).

Definition with_cache (c : gmap string item) (w : world) : world :=
  World c (clock w) (trace w).

Definition at_time (t : Z) (w : world) : world :=
  World (cache w) t (trace w).

(** Computations that read and update the world and may throw. *)
Definition M (A : Type) : Type := world -> (exn + A) * world.

Definition ret {A} (a : A) : M A := fun w => (inr a, w).

Definition throw {A} (e : exn) : M A := fun w => (inl e, w).

Definition bind {A B} (m : M A) (k : A -> M B) : M B :=
  fun w =>
    match m w with
    | (inr a, w') => k a w'
    | (inl e, w') => (inl e, w')
    end.

Definition try_catch {A} (m : M A) (handler : exn -> M A) : M A :=
  fun w =>
    match m w with
    | (inr a, w') => (inr a, w')
    | (inl e, w') => handler e w'
    end.

Definition act (f : world -> world) : M unit := fun w => (inr tt, f w).

Definition ask {A} (f : world -> A) : M A := fun w => (inr (f w), w).

Notation "x <- m ;; k" := (bind m (fun x => k))
  (at level 100, m at next level, right associativity).
Notation "m ;;; k" := (bind m (fun _ => k))
  (at level 100, right associativity).

(** ** Cache store *)

Definition CACHE_TTL : Z := 5 * 60 * 1000.

Definition getCached (key : string) : M value :=
  act (emit (CacheGet key)) ;;;
  found <- ask (fun w => cache w !! key) ;;
  match found with
  | None => ret VNull
  | Some it =>
      now <- ask clock ;;
      if now >? expiry it then
        act (fun w => emit (CacheDelete key) (with_cache (delete key (cache w)) w)) ;;;
        ret VNull
      else ret (data it)
  end.

Definition setCache (key : string) (d : value) : M unit :=
  now <- ask clock ;;
  act (fun w =>
         emit (CacheSet key)
           (with_cache (<[key := Item d (now + CACHE_TTL)]> (cache w)) w)).

Definition world0 : world := World ∅ 0 [].

(** ** Record normaliser *)

(** The result of code that may throw but touches no state. *)
Definition result (A : Type) : Type := (exn + A)%type.

Definition lift {A} (r : result A) : M A := fun w => (r, w).

(** [Array.prototype.map] with a callback that may throw: the first throw
    aborts the traversal. *)
Fixpoint js_map {A B} (f : A -> result B) (l : list A) : result (list B) :=
  match l with
  | [] => inr []
  | x :: l' =>
      match f x with
      | inl e => inl e
      | inr y =>
          match js_map f l' with
          | inl e => inl e
          | inr ys => inr (y :: ys)
          end
      end
  end.

Definition read_of_nullish (v : value) (k : string) : exn :=
  TypeError ("Cannot read properties of "
             +:+ (match v with VNull => "null" | _ => "undefined" end)
             +:+ " (reading '" +:+ k +:+ "')").

(** The fields shared by the two map callbacks, in the order of the object
    literal. *)
Definition commonFields (v : value) : list (string * value) :=
  [ ("id", js_or (get "video_id" v) (get "aweme_id" v));
    ("video_url", get "play" v);
    ("video_url_no_wm", get "wmplay" v);
    ("caption", js_or (get "title" v) (VStr ""));
    ("author",
      VObj [ ("username", js_or (get_opt "unique_id" (get "author" v)) (VStr "unknown"));
             ("nickname", js_or (get_opt "nickname" (get "author" v)) (VStr "Unknown User"));
             ("avatar", js_or (get_opt "avatar" (get "author" v)) (VStr "")) ]);
    ("cover", js_or (get "cover" v) (get "origin_cover" v));
    ("duration", js_or (get "duration" v) (VNum 0));
    ("stats",
      VObj [ ("likes", js_or (get "digg_count" v) (VNum 0));
             ("comments", js_or (get "comment_count" v) (VNum 0));
             ("shares", js_or (get "share_count" v) (VNum 0));
             ("plays", js_or (get "play_count" v) (VNum 0)) ]) ].

(** The map callback of [/api/search].  The first property read, [v.video_id],
    throws on [null] and [undefined]; once it has succeeded no later read
    can throw. *)
Definition searchRecord (v : value) : result value :=
  if nullish v then inl (read_of_nullish v "video_id")
  else inr (VObj (commonFields v ++ [("create_time", get "create_time" v)])).

(** The map callback of [/api/trending]: the same literal without
    [create_time]. *)
Definition trendingRecord (v : value) : result value :=
  if nullish v then inl (read_of_nullish v "video_id")
  else inr (VObj (commonFields v)).

(** [.filter(v => v.video_url)]. *)
Definition hasVideoUrl (r : value) : bool := truthy (get "video_url" r).

(** [data.data.videos.map(callback).filter(v => v.video_url)]: calling
    [.map] on anything but an array throws. *)
Definition normalizeVideos (callback : value -> result value) (videos : value)
  : result (list value) :=
  match videos with
  | VArr l =>
      match js_map callback l with
      | inl e => inl e
      | inr rs => inr (filter (fun r => hasVideoUrl r = true) rs)
      end
  | _ => inl (TypeError "data.data.videos.map is not a function")
  end.

(** ** Query handlers *)

(** [req.query] of a request whose parameters are each absent or given once
    as a string.  A parameter that is repeated or written with brackets
    reaches the handler as an array or an object; such requests are outside
    this record. *)
Record request : Type := Request {
  req_q : option string;
  req_quality : option string }.

Record response : Type := Response { status : Z; body : value }.

(** What one upstream HTTP call does: after [latency] milliseconds it either
    delivers [response.data] or rejects. *)
Inductive upstream_outcome : Type :=
| Responds (latency : Z) (payload : value)
| Fails (latency : Z) (err : exn).

Definition advance (ms : Z) (w : world) : world := at_time (clock w + ms) w.

(** A query parameter as a JavaScript value. *)
Definition param (p : option string) : value :=
  match p with Some s => VStr s | None => VUndef end.

Definition search_cacheKey (q quality : string) : string :=
  "search:" +:+ q +:+ ":" +:+ quality.

(** [!data?.data || !data.data.videos] *)
Definition noVideoList (d : value) : bool :=
  negb (truthy (get_opt "data" d))
  || negb (truthy (get "videos" (get "data" d))).

Section Handlers.

(** [process.env.NODE_ENV] and the upstream collaborator. *)
Variable NODE_ENV : option string.
Variable net : string -> list (string * value) -> upstream_outcome.

(** [await axios.get(url, { params, timeout: 8000, headers })] *)
Definition axios_get (url : string) (params : list (string * value)) : M value :=
  act (emit (UpstreamGet url params)) ;;;
  match net url params with
  | Responds ms d => act (advance ms) ;;; ret d
  | Fails ms e => act (advance ms) ;;; throw e
  end.

Definition console_error (msg : string) : M unit :=
  act (emit (ConsoleError msg)).

Definition search_try (req : request) : M response :=
  let q := req_q req in
  let quality := default "low" (req_quality req) in
  if negb (truthy (param q)) then
    ret (Response 400
           (VObj [ ("error", VStr "Missing query parameter: q");
                   ("example", VStr "/api/search?q=spider+man") ]))
  else
    let q := default "" q in
    if Z.of_nat (String.length q) >? 100 then
      ret (Response 400
             (VObj [ ("error", VStr "Query too long (max 100 characters)") ]))
    else
      let cacheKey := search_cacheKey q quality in
      cached <- getCached cacheKey ;;
      if truthy cached then
        ret (Response 200 (VObj (set_prop "cached" (VBool true) (own_props cached))))
      else
        d <- axios_get "https://www.tikwm.com/api/feed/search"
               [ ("keywords", VStr q); ("count", VNum 20);
                 ("hd", VNum (if String.eqb quality "high" then 1 else 0)) ] ;;
        if noVideoList d then
          ret (Response 200
                 (VObj [ ("videos", VArr []); ("count", VNum 0);
                         ("query", VStr q); ("message", VStr "No videos found") ]))
        else
          videos <- lift (normalizeVideos searchRecord (get "videos" (get "data" d))) ;;
          let result :=
            VObj [ ("videos", VArr videos);
                   ("count", VNum (Z.of_nat (length videos)));
                   ("query", VStr q); ("cached", VBool false) ] in
          setCache cacheKey result ;;;
          ret (Response 200 result).

Definition search_catch (err : exn) : M response :=
  console_error ("Error: " +:+ err_message err) ;;;
  if bool_decide (err_code err = Some "ECONNABORTED") then
    ret (Response 504
           (VObj [ ("error", VStr "Request timeout");
                   ("message", VStr "TikTok API is slow or unavailable") ]))
  else if bool_decide (err_status err = Some 429) then
    ret (Response 429
           (VObj [ ("error", VStr "Rate limited");
                   ("message", VStr "Too many requests. Please try again later.") ]))
  else
    ret (Response 500
           (VObj [ ("error", VStr "Failed to fetch TikTok data");
                   ("message",
                     VStr (if bool_decide (NODE_ENV = Some "development")
                           then err_message err else "Internal server error")) ])).

(** [app.get("/api/search", ...)] *)
Definition search (req : request) : M response :=
  try_catch (search_try req) search_catch.

Definition trending_try : M response :=
  let cacheKey := "trending" in
  cached <- getCached cacheKey ;;
  if truthy cached then
    ret (Response 200 (VObj (set_prop "cached" (VBool true) (own_props cached))))
  else
    d <- axios_get "https://www.tikwm.com/api/feed/list" [] ;;
    if noVideoList d then
      ret (Response 200
             (VObj [ ("videos", VArr []); ("count", VNum 0);
                     ("message", VStr "No trending videos found") ]))
    else
      videos <- lift (normalizeVideos trendingRecord (get "videos" (get "data" d))) ;;
      let result :=
        VObj [ ("videos", VArr videos);
               ("count", VNum (Z.of_nat (length videos)));
               ("cached", VBool false) ] in
      setCache cacheKey result ;;;
      ret (Response 200 result).

Definition trending_catch (err : exn) : M response :=
  console_error ("Error: " +:+ err_message err) ;;;
  ret (Response 500 (VObj [ ("error", VStr "Failed to fetch trending videos") ])).

(** [app.get("/api/trending", ...)] *)
Definition trending : M response :=
  try_catch trending_try trending_catch.

End Handlers.

(** ** Library tree builder *)

(** [{ type: "dir", name, path, children }] or
    [{ type: "file", name, path, size, modified, url }]. *)
Inductive LibraryNode : Type :=
| DirNode (name path : string) (children : list LibraryNode)
| FileNode (name path : string) (size modified : Z) (url : string).

Definition node_type (n : LibraryNode) : string :=
  match n with DirNode _ _ _ => "dir" | FileNode _ _ _ _ _ => "file" end.

Definition node_name (n : LibraryNode) : string :=
  match n with DirNode name _ _ => name | FileNode name _ _ _ _ => name end.

(** The directory under [COMICS_DIR] as the two [fs] calls see it.  A
    directory is either listed by [readdirSync] or makes it throw; an entry
    may also make [statSync] throw (a dangling link, a deletion race). *)
Inductive fsnode : Type :=
| FsFile (size mtime : Z)
| FsDir (entries : list (string * fsnode))
| FsDenied (err : exn)
| FsNoStat (err : exn).

(** What the program reads of a [Stats] object: [isDirectory()] and, for a
    file, [size] and [mtime]. *)
Inductive stat : Type :=
| StatFile (size mtime : Z)
| StatDir.

Definition statSync (n : fsnode) : M stat :=
  match n with
  | FsFile size mtime => ret (StatFile size mtime)
  | FsDir _ | FsDenied _ => ret StatDir
  | FsNoStat err => throw err
  end.

Fixpoint mapM {A B} (f : A -> M B) (l : list A) : M (list B) :=
  match l with
  | [] => ret []
  | x :: l' => y <- f x ;; ys <- mapM f l' ;; ret (y :: ys)
  end.

(** [Array.prototype.sort] is a stable sort; with a consistent comparator
    its result is the stable sorted arrangement, computed here by insertion
    from the right. *)
Fixpoint insert_by {A} (cmp : A -> A -> Z) (x : A) (l : list A) : list A :=
  match l with
  | [] => [x]
  | y :: l' => if cmp x y <=? 0 then x :: y :: l' else y :: insert_by cmp x l'
  end.

Definition js_sort {A} (cmp : A -> A -> Z) (l : list A) : list A :=
  foldr (insert_by cmp) [] l.

(** [rel.replace(/\\/g, "/")] *)
Fixpoint slashes (s : string) : string :=
  match s with
  | EmptyString => EmptyString
  | String c s' =>
      String (if Ascii.eqb c "\"%char then "/"%char else c) (slashes s')
  end.

(** [!name.startsWith(".")] *)
Definition visible (name : string) : Prop := String.prefix "." name = false.

(** The [catch] block of [readComicsTree]: [entries] keeps its initial [[]]. *)
Definition on_error (err : exn) : M (list LibraryNode) :=
  act (emit (ConsoleError ("readComicsTree error: " +:+ err_message err))) ;;;
  ret [].

Section Library.

(** [String.prototype.localeCompare(_, "vi")], the collation of the host's
    internationalisation library, and [path.sep]. *)
Variable localeCompare : string -> string -> Z.
Variable sep : string.

(** The error [readdirSync] throws at [path.join(dir, relPath)] when what is
    there is not a directory; the host words its message around the absolute
    path. *)
Variable scandir_error : string -> exn.

(** What [readdirSync(absDir)] throws when it returns no listing: the error
    of a directory that cannot be listed, or the host's error for something
    that is no directory. *)
Definition readdir_error (relPath : string) (absDir : fsnode) : exn :=
  match absDir with
  | FsDenied err => err
  | _ => scandir_error relPath
  end.

(** [path.join] of a relative path and an entry name. *)
Definition path_join (a b : string) : string := a +:+ sep +:+ b.

Definition compareNodes (a b : LibraryNode) : Z :=
  if negb (String.eqb (node_type a) (node_type b)) then
    if String.eqb (node_type a) "dir" then -1 else 1
  else localeCompare (node_name a) (node_name b).

(** The callback of [.map(name => ...)]; [recurse] is the recursive call
    on the entry. *)
Definition readEntry (baseUrl relPath : string)
    (e : string * (fsnode * (string -> M (list LibraryNode)))) : M LibraryNode :=
  let '(name, (n, recurse)) := e in
  let rel := if negb (String.eqb relPath "") then path_join relPath name else name in
  st <- statSync n ;;
  match st with
  | StatDir =>
      children <- recurse rel ;;
      ret (DirNode name (slashes rel) children)
  | StatFile size mtime =>
      ret (FileNode name (slashes rel) size mtime (baseUrl +:+ "/" +:+ slashes rel))
  end.

(** [readComicsTree(dir, baseUrl, relPath)], with [absDir] what is found at
    [path.join(dir, relPath)].  [names] pairs every name of the listing with
    the entry it names and with the recursive call on that entry, which the
    callback makes for directories only. *)
Fixpoint readComicsTree (baseUrl relPath : string) (absDir : fsnode) {struct absDir}
  : M (list LibraryNode) :=
  try_catch
    (match absDir with
     | FsDir entries =>
         let names :=
           map (fun e => (fst e, (snd e, fun rel => readComicsTree baseUrl rel (snd e))))
             entries in
         nodes <- mapM (readEntry baseUrl relPath)
                    (filter (fun e => visible (fst e)) names) ;;
         ret (js_sort compareNodes nodes)
     | _ => throw (readdir_error relPath absDir)
     end)
    on_error.

(** The entries of a listing paired with their recursive calls. *)
Definition with_calls (baseUrl : string) (entries : list (string * fsnode))
  : list (string * (fsnode * (string -> M (list LibraryNode)))) :=
  map (fun e => (fst e, (snd e, fun rel => readComicsTree baseUrl rel (snd e)))) entries.

Record library_response : Type := LibraryResponse {
  lib_status : Z;
  lib_baseUrl : string;
  lib_items : list LibraryNode }.

(** [app.get("/api/library", ...)] with [COMICS_DIR] as [comics]. *)
Definition library (comics : fsnode) : M library_response :=
  let baseUrl := "/comics" in
  tree <- readComicsTree baseUrl "" comics ;;
  ret (LibraryResponse 200 baseUrl tree).

End Library.

(** ** Vocabulary of the statements *)

(** [a] may stand before [b] in the order of the comparator. *)
Definition not_after {A : Type} (cmp : A -> A -> Z) (a b : A) : Prop := cmp a b <= 0.

(** The object literal of a callback, for a record that can be read. *)
Definition searchFields (v : value) : value :=
  VObj (commonFields v ++ [("create_time", get "create_time" v)]).

Definition trendingFields (v : value) : value := VObj (commonFields v).

(** A record is made by one of the two callbacks from the upstream [v]. *)
Definition normalizes (v r : value) : Prop :=
  searchRecord v = inr r \/ trendingRecord v = inr r.

(** The fields that carry a default. *)
Definition defaulted_fields (r : value) : list value :=
  [ get "caption" r;
    get "username" (get "author" r);
    get "nickname" (get "author" r);
    get "avatar" (get "author" r);
    get "duration" r;
    get "likes" (get "stats" r);
    get "comments" (get "stats" r);
    get "shares" (get "stats" r);
    get "plays" (get "stats" r) ].

(** [x || d] *)
Definition defaults_to (x d out : value) : Prop :=
  (truthy x = true -> out = x) /\ (truthy x = false -> out = d).

Definition search_url : string := "https://www.tikwm.com/api/feed/search".

Definition search_params (q quality : string) : list (string * value) :=
  [ ("keywords", VStr q); ("count", VNum 20);
    ("hd", VNum (if String.eqb quality "high" then 1 else 0)) ].

Definition trending_url : string := "https://www.tikwm.com/api/feed/list".

Definition missing_q : response :=
  Response 400
    (VObj [ ("error", VStr "Missing query parameter: q");
            ("example", VStr "/api/search?q=spider+man") ]).

Definition q_too_long : response :=
  Response 400 (VObj [ ("error", VStr "Query too long (max 100 characters)") ]).

(** The body of a hit: [{ ...cached, cached: true }]. *)
Definition hit_body (cached : value) : value :=
  VObj (set_prop "cached" (VBool true) (own_props cached)).

Definition search_empty (q : string) : response :=
  Response 200
    (VObj [ ("videos", VArr []); ("count", VNum 0);
            ("query", VStr q); ("message", VStr "No videos found") ]).

Definition search_result (q : string) (videos : list value) : value :=
  VObj [ ("videos", VArr videos); ("count", VNum (Z.of_nat (length videos)));
         ("query", VStr q); ("cached", VBool false) ].

Definition trending_empty : response :=
  Response 200
    (VObj [ ("videos", VArr []); ("count", VNum 0);
            ("message", VStr "No trending videos found") ]).

Definition trending_result (videos : list value) : value :=
  VObj [ ("videos", VArr videos); ("count", VNum (Z.of_nat (length videos)));
         ("cached", VBool false) ].

(** A query that passes both checks of [/api/search]. *)
Definition valid_query (req : request) (q : string) : Prop :=
  req_q req = Some q /\ q <> "" /\ (String.length q <= 100)%nat.

Definition quality_of (req : request) : string := default "low" (req_quality req).

(** Upstream behaviours used in the examples. *)
Definition net_timeout (_ : string) (_ : list (string * value)) : upstream_outcome :=
  Fails 8000 (Exn (Some "ECONNABORTED") None "timeout of 8000ms exceeded").

Definition net_no_list (_ : string) (_ : list (string * value)) : upstream_outcome :=
  Responds 120 (VObj [("code", VNum (-1)); ("msg", VStr "Free Api Limit")]).

Definition net_one_video (_ : string) (_ : list (string * value)) : upstream_outcome :=
  Responds 120
    (VObj [("data",
            VObj [("videos",
                   VArr [VObj [("video_id", VStr "7");
                               ("play", VStr "https://v/7.mp4")]])])]).

Fixpoint letters (n : nat) : string :=
  match n with O => "" | S n' => String "a"%char (letters n') end.

(** An entry that [statSync] reports as a directory. *)
Definition is_directory (n : fsnode) : Prop :=
  match n with FsDir _ | FsDenied _ => True | _ => False end.

(** An entry on which [statSync] succeeds. *)
Definition statable (n : fsnode) : Prop :=
  match n with FsNoStat _ => False | _ => True end.

(** One level of the tree: no file comes before a directory, and two nodes
    of the same type come in the order of [localeCompare] on their names. *)
Definition level_ordered (localeCompare : string -> string -> Z)
    (l : list LibraryNode) : Prop :=
  forall i j a b, (i < j)%nat -> l !! i = Some a -> l !! j = Some b ->
    ~ (node_type a = "file" /\ node_type b = "dir")
    /\ (node_type a = node_type b ->
        localeCompare (node_name a) (node_name b) <= 0).

(** Every level of a tree is ordered. *)
Inductive tree_ordered (localeCompare : string -> string -> Z)
  : list LibraryNode -> Prop :=
| tree_ordered_levels (l : list LibraryNode) :
    level_ordered localeCompare l ->
    (forall name path children,
       DirNode name path children ∈ l -> tree_ordered localeCompare children) ->
    tree_ordered localeCompare l.

(** The relative path of an entry: [relPath ? path.join(relPath, name) : name]. *)
Definition entry_rel (sep relPath name : string) : string :=
  if negb (String.eqb relPath "") then path_join sep relPath name else name.

(** A comparator that is consistent and puts "a.txt" before "b.txt": the
    order of the first byte. *)
Definition first_byte (s : string) : Z :=
  match s with
  | EmptyString => 0
  | String c _ => Z.of_N (N_of_ascii c)
  end.

Definition first_byte_compare (a b : string) : Z := first_byte a - first_byte b.

(** The builder's only effect is to append to the console. *)
Definition only_logs (w w' : world) : Prop :=
  cache w' = cache w /\ clock w' = clock w /\ exists evs, trace w' = trace w ++ evs.

(** [e] was recorded between [w] and [w']. *)
Definition logged (w w' : world) (e : event) : Prop :=
  exists evs, trace w' = trace w ++ evs /\ e ∈ evs.

(** The error of Node on a library root that is a regular file. *)
Definition ENOTDIR_at (relPath : string) : exn :=
  Exn (Some "ENOTDIR") None
    ("ENOTDIR: not a directory, scandir '/srv/public/comics" +:+ relPath +:+ "'").

Definition EACCES : exn :=
  Exn (Some "EACCES") None "EACCES: permission denied, scandir".

(** ** Health route *)

Section Health.

(** [new Date().toISOString()] as a function of what [Date.now()] shows. *)
Variable toISOString : Z -> string.

(** [app.get("/api/health", ...)] of [src/api/index.js]; [cache.size] counts
    every entry of the map. *)
Definition health : M response :=
  cache_size <- ask (fun w => size (cache w)) ;;
  now <- ask clock ;;
  ret (Response 200
         (VObj [ ("status", VNum 200);
                 ("cache_size", VNum (Z.of_nat cache_size));
                 ("timestamp", VStr (toISOString now));
                 ("message", VStr "OK");
                 ("comics_dir", VStr "/comics") ])).

(** The same route in [src/unnamed/part_000], which has no library. *)
Definition health_without_library : M response :=
  cache_size <- ask (fun w => size (cache w)) ;;
  now <- ask clock ;;
  ret (Response 200
         (VObj [ ("status", VNum 200);
                 ("cache_size", VNum (Z.of_nat cache_size));
                 ("timestamp", VStr (toISOString now));
                 ("message", VStr "OK") ])).

End Health.

(** ** Vocabulary of the further statements *)

Definition is_upstream_call (e : event) : bool :=
  match e with UpstreamGet _ _ => true | _ => false end.

(** How many upstream calls a stretch of the trace holds. *)
Definition upstream_calls (evs : list event) : nat :=
  length (filter (fun e => is_upstream_call e = true) evs).

(** The two values of [quality] the route documents. *)
Definition documented_quality (quality : string) : Prop :=
  quality = "low" \/ quality = "high".

(** A property of every node of a tree, at every depth. *)
Inductive tree_Forall (P : LibraryNode -> Prop) : list LibraryNode -> Prop :=
| tree_Forall_levels (l : list LibraryNode) :
    Forall P l ->
    (forall name path children,
       DirNode name path children ∈ l -> tree_Forall P children) ->
    tree_Forall P l.

Definition node_path (n : LibraryNode) : string :=
  match n with DirNode _ path _ => path | FileNode _ path _ _ _ => path end.

(** The [url] of a file node is [baseUrl], a slash and its [path]. *)
Definition url_of_path (baseUrl : string) (n : LibraryNode) : Prop :=
  match n with
  | FileNode _ path _ _ url => url = baseUrl +:+ "/" +:+ path
  | DirNode _ _ _ => True
  end.

Definition no_backslash (s : string) : Prop :=
  "\"%char ∉ String.list_ascii_of_string s.

(** A thrown error that carries neither [code] nor [response]. *)
Definition plain_error (e : exn) : Prop :=
  err_code e = None /\ err_status e = None.

(** The body of the 500 answer of [/api/search]. *)
Definition search_failed (NODE_ENV : option string) (e : exn) : response :=
  Response 500
    (VObj [ ("error", VStr "Failed to fetch TikTok data");
            ("message",
              VStr (if bool_decide (NODE_ENV = Some "development")
                    then err_message e else "Internal server error")) ]).

Definition trending_failed : response :=
  Response 500 (VObj [ ("error", VStr "Failed to fetch trending videos") ]).

(** A video list on which [.map(callback)] throws: not an array, or an array
    with a [null] or [undefined] entry. *)
Definition malformed_list (videos : value) : Prop :=
  match videos with
  | VArr l => exists v, v ∈ l /\ nullish v = true
  | _ => True
  end.

(** The [path] of an entry named [name] under the directory whose [path] is
    [parent]; the root has the empty [path]. *)
Definition child_path (parent name : string) : string :=
  if String.eqb parent "" then slashes name else parent +:+ "/" +:+ slashes name.

(** Every node's [path] continues the [path] of the directory it is in. *)
Inductive paths_from (parent : string) : list LibraryNode -> Prop :=
| paths_from_levels (l : list LibraryNode) :
    Forall (fun n => node_path n = child_path parent (node_name n)) l ->
    (forall name path children,
       DirNode name path children ∈ l -> paths_from path children) ->
    paths_from parent l.

(** What the callback returns for an entry of a listing, console apart. *)
Definition entry_result (localeCompare : string -> string -> Z)
    (sep : string) (scandir_error : string -> exn) (baseUrl relPath : string)
    (e : string * fsnode) : result LibraryNode :=
  fst (readEntry sep baseUrl relPath
         (fst e, (snd e, fun rel => readComicsTree localeCompare sep scandir_error baseUrl rel (snd e)))
         world0).

(** Errors and upstream behaviours used in the further examples. *)
Definition rate_limited_timeout : exn :=
  Exn (Some "ECONNABORTED") (Some 429) "timeout of 8000ms exceeded".

Definition net_null_entry (_ : string) (_ : list (string * value)) : upstream_outcome :=
  Responds 120
    (VObj [("data",
            VObj [("videos",
                   VArr [VObj [("play", VStr "https://v/7.mp4")]; VNull])])]).

Definition net_empty_array (_ : string) (_ : list (string * value)) : upstream_outcome :=
  Responds 120 (VObj [("data", VObj [("videos", VArr [])])]).

Definition ENOENT : exn :=
  Exn (Some "ENOENT") None "ENOENT: no such file or directory, stat".

(** * Properties *)

Example getCached_after_set :
  fst (getCached "k" (snd (setCache "k" (VStr "v") world0))) = inr (VStr "v").
Proof. vm_compute. reflexivity. Qed.

(** ** Cache store *)

Lemma CACHE_TTL_ms : CACHE_TTL = 300000.
Proof. reflexivity. Qed.

Lemma setCache_spec (key : string) (d : value) (w : world) :
  setCache key d w =
    (inr tt,
     World (<[key := Item d (clock w + 300000)]> (cache w)) (clock w)
       (trace w ++ [CacheSet key])).
Proof. reflexivity. Qed.

(** The three ways a read can go. *)
Lemma getCached_absent (key : string) (w : world) :
  cache w !! key = None ->
  getCached key w = (inr VNull, emit (CacheGet key) w).
Proof.
  intros Hnone. unfold getCached, bind, act, ask, ret; simpl.
  rewrite Hnone. reflexivity.
Qed.

Lemma getCached_fresh (key : string) (it : item) (w : world) :
  cache w !! key = Some it -> clock w <= expiry it ->
  getCached key w = (inr (data it), emit (CacheGet key) w).
Proof.
  intros Hsome Hle. unfold getCached, bind, act, ask, ret; simpl.
  rewrite Hsome; simpl.
  destruct (Z.gtb_spec (clock w) (expiry it)); [lia | reflexivity].
Qed.

Lemma getCached_stale (key : string) (it : item) (w : world) :
  cache w !! key = Some it -> expiry it < clock w ->
  getCached key w =
    (inr VNull,
     World (delete key (cache w)) (clock w)
       (trace w ++ [CacheGet key; CacheDelete key])).
Proof.
  intros Hsome Hlt. unfold getCached, bind, act, ask, ret; simpl.
  rewrite Hsome; simpl.
  destruct (Z.gtb_spec (clock w) (expiry it)); [| lia].
  unfold emit, with_cache; simpl. rewrite <- app_assoc. reflexivity.
Qed.

(** A read never throws, leaves the clock alone, and touches at most the
    entry of its own key. *)
Lemma getCached_total (key : string) (w : world) :
  exists v w', getCached key w = (inr v, w')
    /\ clock w' = clock w
    /\ (forall k, k <> key -> cache w' !! k = cache w !! k)
    /\ (cache w' = cache w \/ cache w' = delete key (cache w))
    /\ (exists evs, trace w' = trace w ++ CacheGet key :: evs
          /\ Forall (fun e => e = CacheDelete key) evs).
Proof.
  destruct (cache w !! key) as [it|] eqn:Hk.
  - destruct (Z.le_gt_cases (clock w) (expiry it)) as [Hle|Hgt].
    + eexists _, _. split; [apply (getCached_fresh _ it); assumption|].
      simpl. repeat split; auto. exists []. split; [reflexivity | constructor].
    + eexists _, _. split; [apply (getCached_stale _ it); [assumption | lia]|].
      simpl. repeat split; auto.
      * intros k Hne. apply lookup_delete_ne. congruence.
      * exists [CacheDelete key]. split; [reflexivity | repeat constructor].
  - eexists _, _. split; [apply getCached_absent; assumption|].
    simpl. repeat split; auto. exists []. split; [reflexivity | constructor].
Qed.

(** C1, as the code has it.  A value stored by [setCache] when the clock
    shows [t] is returned unchanged by every [getCached] whose clock shows
    at most [t + 300000], the entry staying in place; from [t + 300000 + 1]
    on the read returns [null] and deletes the entry.  Expiry is strict:
    the test is [Date.now() > item.expiry], so the read at exactly
    [t + 300000] still returns the value.  Writes to other keys in between
    do not matter. *)
Theorem cache_ttl_window (key : string) (v : value) (w w' : world) :
  cache w' !! key = cache (snd (setCache key v w)) !! key ->
  (clock w' <= clock w + 300000 ->
     fst (getCached key w') = inr v
     /\ cache (snd (getCached key w')) = cache w')
  /\ (clock w + 300000 < clock w' ->
     fst (getCached key w') = inr VNull
     /\ cache (snd (getCached key w')) = delete key (cache w')
     /\ cache (snd (getCached key w')) !! key = None).
Proof.
  rewrite setCache_spec; simpl. rewrite lookup_insert_eq. intros Hk. split.
  - intros Hle. rewrite (getCached_fresh key _ w' Hk); [| simpl; lia].
    split; reflexivity.
  - intros Hlt. rewrite (getCached_stale key _ w' Hk); [| simpl; lia].
    simpl. repeat split. apply lookup_delete_eq.
Qed.

Lemma cache_ttl_window_witness :
  let w1 := snd (setCache "search:cats:low" (VStr "payload") world0) in
  (fst (getCached "search:cats:low" (at_time 300000 w1)) = inr (VStr "payload")
   /\ cache (snd (getCached "search:cats:low" (at_time 300000 w1))) = cache w1)
  /\ fst (getCached "search:cats:low" (at_time 300001 w1)) = inr VNull.
Proof.
  intros w1.
  pose proof (cache_ttl_window "search:cats:low" (VStr "payload") world0
                (at_time 300000 w1) eq_refl) as [Hin _].
  pose proof (cache_ttl_window "search:cats:low" (VStr "payload") world0
                (at_time 300001 w1) eq_refl) as [_ Hout].
  split.
  - apply Hin. simpl. lia.
  - apply Hout. simpl. lia.
Defined.

(** C1, the boundary as the claim words it: a read at exactly [t + 300000]
    would have to return absent and delete the entry.  It returns the stored
    value and keeps the entry. *)
Lemma cache_ttl_boundary_counterexample :
  let w1 := snd (setCache "k" (VStr "v") world0) in
  let r := getCached "k" (at_time (clock world0 + 300000) w1) in
  fst r = inr (VStr "v")
  /\ fst r <> inr VNull
  /\ cache (snd r) !! "k" = Some (Item (VStr "v") 300000).
Proof.
  vm_compute. split; [reflexivity | split; [discriminate | reflexivity]].
Qed.

(** ** Record normaliser *)

Lemma js_map_Forall2 {A B} (f : A -> result B) (l : list A) (rs : list B) :
  js_map f l = inr rs -> Forall2 (fun x y => f x = inr y) l rs.
Proof.
  revert rs. induction l as [|x l IH]; simpl; intros rs H.
  - inversion H. constructor.
  - destruct (f x) as [e|y] eqn:Hx; [discriminate|].
    destruct (js_map f l) as [e|ys]; [discriminate|].
    inversion H; subst. constructor; auto.
Qed.

Lemma js_map_total {A B} (f : A -> result B) (g : A -> B) (l : list A) :
  Forall (fun x => f x = inr (g x)) l -> js_map f l = inr (map g l).
Proof.
  induction 1 as [|x l Hx _ IH]; simpl; [reflexivity|].
  rewrite Hx, IH. reflexivity.
Qed.

Lemma js_or_undef (a b : value) :
  js_or a b = VUndef <-> truthy a = false /\ b = VUndef.
Proof.
  unfold js_or. destruct (truthy a) eqn:Ha.
  - split.
    + intros ->. discriminate Ha.
    + intros [Hf _]. discriminate Hf.
  - tauto.
Qed.

Lemma js_or_not_nullish (a d : value) :
  nullish d = false -> nullish (js_or a d) = false.
Proof.
  intros Hd. unfold js_or. destruct (truthy a) eqn:Ha; [| exact Hd].
  destruct a; simpl in *; congruence.
Qed.

Lemma truthy_not_empty (x : value) :
  truthy x = true -> x <> VStr "" /\ x <> VUndef /\ x <> VNull.
Proof.
  intros H. repeat split; intros ->; discriminate H.
Qed.

Lemma searchRecord_ok (v : value) :
  nullish v = false -> searchRecord v = inr (searchFields v).
Proof. intros H. unfold searchRecord. rewrite H. reflexivity. Qed.

Lemma trendingRecord_ok (v : value) :
  nullish v = false -> trendingRecord v = inr (trendingFields v).
Proof. intros H. unfold trendingRecord. rewrite H. reflexivity. Qed.

Lemma searchRecord_inv (v r : value) :
  searchRecord v = inr r -> nullish v = false /\ r = searchFields v.
Proof.
  unfold searchRecord. destruct (nullish v); [discriminate|].
  intros H; inversion H. split; reflexivity.
Qed.

Lemma trendingRecord_inv (v r : value) :
  trendingRecord v = inr r -> nullish v = false /\ r = trendingFields v.
Proof.
  unfold trendingRecord. destruct (nullish v); [discriminate|].
  intros H; inversion H. split; reflexivity.
Qed.

Lemma normalizes_fields (v r : value) :
  normalizes v r ->
  nullish v = false
  /\ get "id" r = js_or (get "video_id" v) (get "aweme_id" v)
  /\ get "video_url" r = get "play" v
  /\ get "video_url_no_wm" r = get "wmplay" v
  /\ get "cover" r = js_or (get "cover" v) (get "origin_cover" v)
  /\ defaulted_fields r =
       [ js_or (get "title" v) (VStr "");
         js_or (get_opt "unique_id" (get "author" v)) (VStr "unknown");
         js_or (get_opt "nickname" (get "author" v)) (VStr "Unknown User");
         js_or (get_opt "avatar" (get "author" v)) (VStr "");
         js_or (get "duration" v) (VNum 0);
         js_or (get "digg_count" v) (VNum 0);
         js_or (get "comment_count" v) (VNum 0);
         js_or (get "share_count" v) (VNum 0);
         js_or (get "play_count" v) (VNum 0) ].
Proof.
  intros [H|H];
    [apply searchRecord_inv in H | apply trendingRecord_inv in H];
    destruct H as [Hv ->]; repeat split; assumption || reflexivity.
Qed.

(** What [normalizeVideos] returns on an array without [null] entries. *)
Lemma normalizeVideos_search (l : list value) :
  Forall (fun v => nullish v = false) l ->
  normalizeVideos searchRecord (VArr l) =
    inr (filter (fun r => hasVideoUrl r = true) (map searchFields l)).
Proof.
  intros Hl. unfold normalizeVideos.
  rewrite (js_map_total searchRecord searchFields); [reflexivity|].
  eapply Forall_impl; [exact Hl|]. intros v Hv. apply searchRecord_ok, Hv.
Qed.

Lemma normalizeVideos_trending (l : list value) :
  Forall (fun v => nullish v = false) l ->
  normalizeVideos trendingRecord (VArr l) =
    inr (filter (fun r => hasVideoUrl r = true) (map trendingFields l)).
Proof.
  intros Hl. unfold normalizeVideos.
  rewrite (js_map_total trendingRecord trendingFields); [reflexivity|].
  eapply Forall_impl; [exact Hl|]. intros v Hv. apply trendingRecord_ok, Hv.
Qed.

(** Every record of the output comes from an upstream record and has passed
    the filter. *)
Lemma normalizeVideos_elem (callback : value -> result value)
    (l out : list value) (r : value) :
  normalizeVideos callback (VArr l) = inr out -> r ∈ out ->
  hasVideoUrl r = true /\ exists v, v ∈ l /\ callback v = inr r.
Proof.
  unfold normalizeVideos. destruct (js_map callback l) as [e|rs] eqn:Hmap;
    [discriminate|].
  intros H Hr. inversion H; subst; clear H.
  apply list_elem_of_filter in Hr as [Hurl Hin]. split; [exact Hurl|].
  apply js_map_Forall2 in Hmap.
  clear Hurl. induction Hmap as [|v r' l rs Hvr _ IH].
  - inversion Hin.
  - apply elem_of_cons in Hin as [->|Hin].
    + exists v. split; [left | exact Hvr].
    + destruct (IH Hin) as (v' & Hv' & Hc). exists v'. split; [right|]; assumption.
Qed.

Lemma callback_cases (callback : value -> result value) :
  callback = searchRecord \/ callback = trendingRecord ->
  exists fields,
    (forall v, nullish v = false -> callback v = inr (fields v))
    /\ (forall v r, callback v = inr r -> normalizes v r).
Proof.
  intros [->| ->].
  - exists searchFields. split; [apply searchRecord_ok | intros v r H; left; exact H].
  - exists trendingFields. split; [apply trendingRecord_ok | intros v r H; right; exact H].
Qed.

Lemma defaulted_not_nullish (v r : value) :
  normalizes v r -> Forall (fun x => nullish x = false) (defaulted_fields r).
Proof.
  intros H. apply normalizes_fields in H as (_ & _ & _ & _ & _ & ->).
  repeat constructor; apply js_or_not_nullish; reflexivity.
Qed.

(** C2, as the code has it.  In every record the normaliser produces,
    [caption], the three [author] fields, [duration] and the four [stats]
    fields are present, and so is [video_url] in every record that is
    retained.  [id], [cover] and [video_url_no_wm] carry no default: [id]
    is [undefined] exactly when [video_id] is falsy and [aweme_id] is
    missing, [cover] exactly when [cover] is falsy and [origin_cover] is
    missing, [video_url_no_wm] exactly when [wmplay] is missing. *)
Theorem normalized_record_totality (callback : value -> result value)
    (l : list value) :
  callback = searchRecord \/ callback = trendingRecord ->
  Forall (fun v => nullish v = false) l ->
  exists out,
    normalizeVideos callback (VArr l) = inr out
    /\ forall r, r ∈ out ->
         Forall (fun x => nullish x = false) (defaulted_fields r)
         /\ truthy (get "video_url" r) = true
         /\ exists v, v ∈ l /\ normalizes v r
              /\ (get "id" r = VUndef <->
                    truthy (get "video_id" v) = false /\ get "aweme_id" v = VUndef)
              /\ (get "cover" r = VUndef <->
                    truthy (get "cover" v) = false /\ get "origin_cover" v = VUndef)
              /\ (get "video_url_no_wm" r = VUndef <-> get "wmplay" v = VUndef).
Proof.
  intros Hcb Hl. destruct (callback_cases callback Hcb) as (fields & Hok & Hnorm).
  assert (Hout : normalizeVideos callback (VArr l) =
                   inr (filter (fun r => hasVideoUrl r = true) (map fields l))).
  { unfold normalizeVideos. rewrite (js_map_total callback fields); [reflexivity|].
    eapply Forall_impl; [exact Hl|]. intros v Hv. apply Hok, Hv. }
  eexists. split; [exact Hout|]. intros r Hr.
  destruct (normalizeVideos_elem _ _ _ _ Hout Hr) as (Hurl & v & Hv & Hc).
  apply Hnorm in Hc. split; [eapply defaulted_not_nullish; exact Hc|].
  split; [exact Hurl|]. exists v. split; [exact Hv|]. split; [exact Hc|].
  destruct (normalizes_fields v r Hc) as (_ & Hid & _ & Hwm & Hcover & _).
  rewrite Hid, Hcover, Hwm.
  split; [apply js_or_undef | split; [apply js_or_undef | tauto]].
Qed.

Lemma normalized_record_totality_witness :
  exists out,
    normalizeVideos searchRecord
      (VArr [VObj [("video_id", VStr "7"); ("play", VStr "https://v/7.mp4")]]) = inr out
    /\ forall r, r ∈ out ->
         Forall (fun x => nullish x = false) (defaulted_fields r)
         /\ truthy (get "video_url" r) = true.
Proof.
  destruct (normalized_record_totality searchRecord
              [VObj [("video_id", VStr "7"); ("play", VStr "https://v/7.mp4")]]
              (or_introl eq_refl)
              ltac:(repeat constructor))
    as (out & Hout & Hall).
  exists out. split; [exact Hout|].
  intros r Hr. destruct (Hall r Hr) as (Hd & Hu & _). split; assumption.
Defined.

(** C2 as worded: a playable upstream record with neither id field nor
    cover field is kept, and its [id] and [cover] are absent. *)
Lemma normalized_record_id_cover_counterexample :
  exists r,
    normalizeVideos searchRecord (VArr [VObj [("play", VStr "https://v/1.mp4")]])
      = inr [r]
    /\ get "id" r = VUndef
    /\ get "cover" r = VUndef.
Proof. eexists. vm_compute. repeat split. Qed.

Lemma js_or_defaults_to (x d : value) : defaults_to x d (js_or x d).
Proof. unfold defaults_to, js_or. destruct (truthy x); split; congruence. Qed.

Lemma defaults_to_missing (x d out : value) :
  defaults_to x d out -> x = VUndef \/ x = VNum 0 \/ x = VStr "" \/ x = VNull -> out = d.
Proof.
  intros [_ H] Hx. apply H. destruct Hx as [->|[->|[->| ->]]]; reflexivity.
Qed.

(** C6.  For every upstream record both callbacks return, with [caption]
    defaulting to the empty string, [author.username] to "unknown",
    [author.nickname] to "Unknown User", [author.avatar] to the empty
    string, [cover] falling back to [origin_cover], and [duration] and the
    four [stats] fields defaulting to 0; a default is taken exactly when the
    upstream field is falsy, which includes a missing field and a real 0. *)
Theorem normalizer_defaults (v : value) :
  nullish v = false ->
  exists rs rt,
    searchRecord v = inr rs /\ trendingRecord v = inr rt
    /\ forall r, r = rs \/ r = rt ->
         defaults_to (get "title" v) (VStr "") (get "caption" r)
         /\ defaults_to (get_opt "unique_id" (get "author" v)) (VStr "unknown")
              (get "username" (get "author" r))
         /\ defaults_to (get_opt "nickname" (get "author" v)) (VStr "Unknown User")
              (get "nickname" (get "author" r))
         /\ defaults_to (get_opt "avatar" (get "author" v)) (VStr "")
              (get "avatar" (get "author" r))
         /\ defaults_to (get "cover" v) (get "origin_cover" v) (get "cover" r)
         /\ defaults_to (get "duration" v) (VNum 0) (get "duration" r)
         /\ defaults_to (get "digg_count" v) (VNum 0) (get "likes" (get "stats" r))
         /\ defaults_to (get "comment_count" v) (VNum 0) (get "comments" (get "stats" r))
         /\ defaults_to (get "share_count" v) (VNum 0) (get "shares" (get "stats" r))
         /\ defaults_to (get "play_count" v) (VNum 0) (get "plays" (get "stats" r))
         /\ (get "digg_count" v = VUndef \/ get "digg_count" v = VNum 0 ->
             get "likes" (get "stats" r) = VNum 0).
Proof.
  intros Hv. exists (searchFields v), (trendingFields v).
  split; [apply searchRecord_ok, Hv|]. split; [apply trendingRecord_ok, Hv|].
  intros r [-> | ->]; repeat split; try apply js_or_defaults_to;
    intros [H|H]; change (js_or (get "digg_count" v) (VNum 0) = VNum 0);
    rewrite H; reflexivity.
Qed.

Lemma normalizer_defaults_witness :
  (exists r, searchRecord (VObj [("digg_count", VNum 0)]) = inr r
             /\ get "likes" (get "stats" r) = VNum 0)
  /\ (exists r, searchRecord (VObj []) = inr r
                /\ get "likes" (get "stats" r) = VNum 0
                /\ get "username" (get "author" r) = VStr "unknown").
Proof.
  split.
  - destruct (normalizer_defaults (VObj [("digg_count", VNum 0)]) eq_refl)
      as (rs & rt & Hs & _ & H).
    exists rs. split; [exact Hs|].
    destruct (H rs (or_introl eq_refl)) as (_ & _ & _ & _ & _ & _ & _ & _ & _ & _ & Hl).
    apply Hl. right. reflexivity.
  - destruct (normalizer_defaults (VObj []) eq_refl) as (rs & rt & Hs & _ & H).
    exists rs. split; [exact Hs|].
    destruct (H rs (or_introl eq_refl)) as (_ & Hu & _ & _ & _ & _ & _ & _ & _ & _ & Hl).
    split; [apply Hl; left; reflexivity|].
    apply (proj2 Hu). reflexivity.
Defined.

Lemma Forall2_map_r {A B} (R : A -> B -> Prop) (g : A -> B) (l : list A) :
  (forall x, x ∈ l -> R x (g x)) -> Forall2 R l (map g l).
Proof.
  induction l as [|x l IH]; intros H; simpl; constructor.
  - apply H. left.
  - apply IH. intros y Hy. apply H. right. exact Hy.
Qed.

(** C3.  The output of the normaliser is the mapped list with a filter
    applied to it afterwards: it is a sublist of the mapped records, in their
    order, holding exactly those whose [video_url] is truthy, so no retained
    record has an empty or missing [video_url]; an upstream record whose
    [play] is empty or missing contributes nothing, whatever its [wmplay]. *)
Theorem filter_law (callback : value -> result value) (l : list value) :
  callback = searchRecord \/ callback = trendingRecord ->
  Forall (fun v => nullish v = false) l ->
  exists mapped out,
    js_map callback l = inr mapped
    /\ Forall2 normalizes l mapped
    /\ normalizeVideos callback (VArr l) = inr out
    /\ out `sublist_of` mapped
    /\ (forall r, r ∈ out <-> r ∈ mapped /\ truthy (get "video_url" r) = true)
    /\ (forall r, r ∈ out ->
          get "video_url" r <> VStr "" /\ get "video_url" r <> VUndef)
    /\ (forall l1 v l2, l = l1 ++ v :: l2 ->
          get "play" v = VStr "" \/ get "play" v = VUndef ->
          normalizeVideos callback (VArr (l1 ++ l2)) = inr out).
Proof.
  intros Hcb Hl. destruct (callback_cases callback Hcb) as (fields & Hok & Hnorm).
  assert (Hmap : forall l', Forall (fun v => nullish v = false) l' ->
                   js_map callback l' = inr (map fields l')).
  { intros l' Hl'. apply js_map_total. eapply Forall_impl; [exact Hl'|].
    intros v Hv. apply Hok, Hv. }
  exists (map fields l), (filter (fun r => hasVideoUrl r = true) (map fields l)).
  split; [apply Hmap, Hl|].
  split.
  { apply Forall2_map_r. intros v Hv. apply Hnorm, Hok.
    rewrite Forall_forall in Hl. apply Hl, Hv. }
  split; [unfold normalizeVideos; rewrite (Hmap l Hl); reflexivity|].
  split; [apply sublist_filter|].
  split.
  { intros r. rewrite list_elem_of_filter. unfold hasVideoUrl. tauto. }
  split.
  { intros r Hr. apply list_elem_of_filter in Hr as [Hurl _].
    apply truthy_not_empty in Hurl. tauto. }
  intros l1 v l2 -> Hplay.
  apply Forall_app in Hl as [Hl1 Hl2]. apply Forall_cons in Hl2 as [Hv Hl2].
  unfold normalizeVideos. rewrite Hmap by (apply Forall_app; split; assumption).
  f_equal. rewrite !map_app, !filter_app. simpl.
  rewrite filter_cons_False; [reflexivity|].
  assert (Hurl : get "video_url" (fields v) = get "play" v).
  { apply (normalizes_fields v (fields v)). apply Hnorm, Hok, Hv. }
  unfold hasVideoUrl. rewrite Hurl.
  destruct Hplay as [-> | ->]; simpl; discriminate.
Qed.

Lemma filter_law_witness :
  exists mapped out,
    js_map trendingRecord
      [ VObj [("play", VStr ""); ("wmplay", VStr "")];
        VObj [("play", VStr "https://v/2.mp4")];
        VObj [("video_id", VStr "3")] ] = inr mapped
    /\ normalizeVideos trendingRecord
         (VArr [ VObj [("play", VStr ""); ("wmplay", VStr "")];
                 VObj [("play", VStr "https://v/2.mp4")];
                 VObj [("video_id", VStr "3")] ]) = inr out
    /\ out `sublist_of` mapped
    /\ forall r, r ∈ out -> get "video_url" r <> VStr "".
Proof.
  destruct (filter_law trendingRecord
              [ VObj [("play", VStr ""); ("wmplay", VStr "")];
                VObj [("play", VStr "https://v/2.mp4")];
                VObj [("video_id", VStr "3")] ]
              (or_intror eq_refl) ltac:(repeat constructor))
    as (mapped & out & Hmapped & _ & Hout & Hsub & _ & Hurl & _).
  exists mapped, out. repeat split; try assumption.
  intros r Hr. apply (Hurl r Hr).
Defined.

Example normalizeVideos_drops_empty_play :
  normalizeVideos trendingRecord
    (VArr [ VObj [("play", VStr ""); ("wmplay", VStr "")];
            VObj [("play", VStr "https://v/2.mp4")];
            VObj [("video_id", VStr "3")] ])
  = inr [trendingFields (VObj [("play", VStr "https://v/2.mp4")])].
Proof. vm_compute. reflexivity. Qed.

(** ** Query handlers *)

Section HandlerFacts.

Variable NODE_ENV : option string.
Variable net : string -> list (string * value) -> upstream_outcome.

Lemma search_missing (req : request) (w : world) :
  truthy (param (req_q req)) = false ->
  search NODE_ENV net req w = (inr missing_q, w).
Proof.
  intros Hq. unfold search, try_catch, search_try. rewrite Hq. reflexivity.
Qed.

Lemma search_too_long (req : request) (q : string) (w : world) :
  req_q req = Some q -> (100 < String.length q)%nat ->
  search NODE_ENV net req w = (inr q_too_long, w).
Proof.
  intros Hq Hlen. unfold search, try_catch, search_try. rewrite Hq.
  destruct q as [|c q']; [simpl in Hlen; lia|].
  cbn [param truthy String.eqb negb default from_option id].
  destruct (Z.gtb_spec (Z.of_nat (String.length (String c q'))) 100) as [_|Hle];
    [reflexivity | lia].
Qed.

(** Past validation the handler is the cache read followed by the rest. *)
Lemma search_valid (req : request) (q : string) (w : world) :
  valid_query req q ->
  search NODE_ENV net req w =
    try_catch
      (cached <- getCached (search_cacheKey q (quality_of req)) ;;
       if truthy cached then ret (Response 200 (hit_body cached))
       else
         d <- axios_get net search_url (search_params q (quality_of req)) ;;
         if noVideoList d then ret (search_empty q)
         else
           videos <- lift (normalizeVideos searchRecord (get "videos" (get "data" d))) ;;
           setCache (search_cacheKey q (quality_of req)) (search_result q videos) ;;;
           ret (Response 200 (search_result q videos)))
      (search_catch NODE_ENV) w.
Proof.
  intros (Hq & Hne & Hlen). unfold search, try_catch, search_try. rewrite Hq.
  destruct q as [|c q']; [congruence|].
  cbn [param truthy String.eqb negb default from_option id].
  destruct (Z.gtb_spec (Z.of_nat (String.length (String c q'))) 100) as [Hgt|_];
    [lia | reflexivity].
Qed.

End HandlerFacts.

Lemma lookup_set_prop_eq (k : string) (x : value) (ps : list (string * value)) :
  lookup_prop k (set_prop k x ps) = x.
Proof.
  induction ps as [|[k' v] ps IH]; simpl.
  - rewrite String.eqb_refl. reflexivity.
  - destruct (String.eqb_spec k k') as [->|Hne]; simpl.
    + rewrite String.eqb_refl. reflexivity.
    + destruct (String.eqb_spec k k'); [contradiction | exact IH].
Qed.

Lemma lookup_set_prop_ne (k k' : string) (x : value) (ps : list (string * value)) :
  k' <> k -> lookup_prop k' (set_prop k x ps) = lookup_prop k' ps.
Proof.
  intros Hne. induction ps as [|[k0 v] ps IH]; simpl.
  - destruct (String.eqb_spec k' k); [contradiction | reflexivity].
  - destruct (String.eqb_spec k k0) as [->|Hk]; simpl.
    + destruct (String.eqb_spec k' k0); [contradiction | reflexivity].
    + destruct (String.eqb_spec k' k0); [reflexivity | exact IH].
Qed.

Lemma lookup_prop_key (k : string) (ps : list (string * value)) :
  lookup_prop k ps <> VUndef -> k ∈ map fst ps.
Proof.
  induction ps as [|[k' v] ps IH]; cbn [lookup_prop map fst]; intros H.
  - congruence.
  - destruct (String.eqb_spec k k') as [->|Hne]; [left | right; apply IH, H].
Qed.

(** The keys of [{ ...cached, cached: true }] when [cached] already has the
    flag: the same keys in the same order. *)
Lemma set_prop_keys (k : string) (x : value) (ps : list (string * value)) :
  k ∈ map fst ps -> map fst (set_prop k x ps) = map fst ps.
Proof.
  induction ps as [|[k' v] ps IH]; simpl; intros Hin.
  - inversion Hin.
  - destruct (String.eqb_spec k k') as [->|Hne]; simpl; [reflexivity|].
    f_equal. apply IH. apply elem_of_cons in Hin as [?|?]; [contradiction | assumption].
Qed.

Section HandlerOutcomes.

Variable NODE_ENV : option string.
Variable net : string -> list (string * value) -> upstream_outcome.

Lemma axios_get_responds url params ms d (w : world) :
  net url params = Responds ms d ->
  axios_get net url params w =
    (inr d, World (cache w) (clock w + ms) (trace w ++ [UpstreamGet url params])).
Proof. intros H. unfold axios_get, bind, act. rewrite H. reflexivity. Qed.

Lemma axios_get_fails url params ms e (w : world) :
  net url params = Fails ms e ->
  axios_get net url params w =
    (inl e, World (cache w) (clock w + ms) (trace w ++ [UpstreamGet url params])).
Proof. intros H. unfold axios_get, bind, act. rewrite H. reflexivity. Qed.

(** The [catch] blocks answer and only write to the console. *)
Lemma search_catch_outcome (e : exn) (w : world) :
  exists resp,
    search_catch NODE_ENV e w =
      (inr resp, emit (ConsoleError ("Error: " +:+ err_message e)) w)
    /\ (status resp = 504 \/ status resp = 429 \/ status resp = 500).
Proof.
  unfold search_catch, console_error, bind, act.
  destruct (bool_decide (err_code e = Some "ECONNABORTED"));
    [| destruct (bool_decide (err_status e = Some 429))];
    eexists; (split; [reflexivity | simpl; tauto]).
Qed.

Lemma trending_catch_outcome (e : exn) (w : world) :
  trending_catch e w =
    (inr (Response 500 (VObj [("error", VStr "Failed to fetch trending videos")])),
     emit (ConsoleError ("Error: " +:+ err_message e)) w).
Proof. reflexivity. Qed.

Lemma search_hit (req : request) (q : string) (w w1 : world) (cached : value) :
  valid_query req q ->
  getCached (search_cacheKey q (quality_of req)) w = (inr cached, w1) ->
  truthy cached = true ->
  search NODE_ENV net req w = (inr (Response 200 (hit_body cached)), w1).
Proof.
  intros Hv Hget Hhit. rewrite (search_valid _ _ _ q) by exact Hv.
  unfold try_catch, bind. rewrite Hget, Hhit. reflexivity.
Qed.

Lemma trending_hit (w w1 : world) (cached : value) :
  getCached "trending" w = (inr cached, w1) ->
  truthy cached = true ->
  trending net w = (inr (Response 200 (hit_body cached)), w1).
Proof.
  intros Hget Hhit. unfold trending, trending_try, try_catch, bind.
  rewrite Hget, Hhit. reflexivity.
Qed.

Lemma search_miss_empty (req : request) (q : string) (w w1 : world)
    (cached : value) (ms : Z) (d : value) :
  valid_query req q ->
  getCached (search_cacheKey q (quality_of req)) w = (inr cached, w1) ->
  truthy cached = false ->
  net search_url (search_params q (quality_of req)) = Responds ms d ->
  noVideoList d = true ->
  search NODE_ENV net req w =
    (inr (search_empty q),
     World (cache w1) (clock w1 + ms)
       (trace w1 ++ [UpstreamGet search_url (search_params q (quality_of req))])).
Proof.
  intros Hv Hget Hmiss Hnet Hno. rewrite (search_valid _ _ _ q) by exact Hv.
  unfold try_catch, bind. rewrite Hget, Hmiss.
  rewrite (axios_get_responds _ _ ms d) by exact Hnet. rewrite Hno. reflexivity.
Qed.

Lemma trending_miss_empty (w w1 : world) (cached : value) (ms : Z) (d : value) :
  getCached "trending" w = (inr cached, w1) ->
  truthy cached = false ->
  net trending_url [] = Responds ms d ->
  noVideoList d = true ->
  trending net w =
    (inr trending_empty,
     World (cache w1) (clock w1 + ms) (trace w1 ++ [UpstreamGet trending_url []])).
Proof.
  intros Hget Hmiss Hnet Hno. unfold trending, trending_try, try_catch, bind.
  rewrite Hget, Hmiss.
  rewrite (axios_get_responds trending_url [] ms d) by exact Hnet.
  rewrite Hno. reflexivity.
Qed.

Lemma search_miss_stored (req : request) (q : string) (w w1 : world)
    (cached : value) (ms : Z) (d : value) (videos : list value) :
  valid_query req q ->
  getCached (search_cacheKey q (quality_of req)) w = (inr cached, w1) ->
  truthy cached = false ->
  net search_url (search_params q (quality_of req)) = Responds ms d ->
  noVideoList d = false ->
  normalizeVideos searchRecord (get "videos" (get "data" d)) = inr videos ->
  search NODE_ENV net req w =
    (inr (Response 200 (search_result q videos)),
     World (<[search_cacheKey q (quality_of req) :=
                Item (search_result q videos) (clock w1 + ms + 300000)]> (cache w1))
       (clock w1 + ms)
       (trace w1 ++ [UpstreamGet search_url (search_params q (quality_of req));
                     CacheSet (search_cacheKey q (quality_of req))])).
Proof.
  intros Hv Hget Hmiss Hnet Hno Hnorm. rewrite (search_valid _ _ _ q) by exact Hv.
  unfold try_catch, bind. rewrite Hget, Hmiss.
  rewrite (axios_get_responds _ _ ms d) by exact Hnet. rewrite Hno.
  unfold lift. rewrite Hnorm. rewrite setCache_spec. simpl.
  rewrite <- app_assoc. reflexivity.
Qed.

Lemma trending_miss_stored (w w1 : world) (cached : value) (ms : Z) (d : value)
    (videos : list value) :
  getCached "trending" w = (inr cached, w1) ->
  truthy cached = false ->
  net trending_url [] = Responds ms d ->
  noVideoList d = false ->
  normalizeVideos trendingRecord (get "videos" (get "data" d)) = inr videos ->
  trending net w =
    (inr (Response 200 (trending_result videos)),
     World (<["trending" := Item (trending_result videos) (clock w1 + ms + 300000)]>
              (cache w1))
       (clock w1 + ms)
       (trace w1 ++ [UpstreamGet trending_url []; CacheSet "trending"])).
Proof.
  intros Hget Hmiss Hnet Hno Hnorm. unfold trending, trending_try, try_catch, bind.
  rewrite Hget, Hmiss.
  rewrite (axios_get_responds trending_url [] ms d) by exact Hnet. rewrite Hno.
  unfold lift. rewrite Hnorm. rewrite setCache_spec. simpl.
  rewrite <- app_assoc. reflexivity.
Qed.

End HandlerOutcomes.

Section HandlerPaths.

Variable NODE_ENV : option string.
Variable net : string -> list (string * value) -> upstream_outcome.

(** Every valid search request is answered, never with 400; it reads the
    cache first, and on a miss the next thing it does is the upstream
    call. *)
Lemma search_valid_outcome (req : request) (q : string) (w : world) :
  valid_query req q ->
  exists cached w1 resp w',
    getCached (search_cacheKey q (quality_of req)) w = (inr cached, w1)
    /\ search NODE_ENV net req w = (inr resp, w')
    /\ status resp <> 400
    /\ (if truthy cached then w' = w1
        else exists evs,
          trace w' = trace w1
            ++ UpstreamGet search_url (search_params q (quality_of req)) :: evs).
Proof.
  intros Hv.
  destruct (getCached_total (search_cacheKey q (quality_of req)) w)
    as (cached & w1 & Hget & _).
  exists cached, w1. rewrite (search_valid _ _ _ q) by exact Hv.
  unfold try_catch, bind. rewrite Hget.
  destruct (truthy cached) eqn:Hhit.
  { eexists _, _. repeat split. discriminate. }
  destruct (net search_url (search_params q (quality_of req))) as [ms d|ms e] eqn:Hnet.
  - rewrite (axios_get_responds _ _ _ ms d) by exact Hnet.
    destruct (noVideoList d).
    { eexists _, _. repeat split; [discriminate|]. exists []. reflexivity. }
    unfold lift.
    destruct (normalizeVideos searchRecord (get "videos" (get "data" d)))
      as [e|videos].
    + destruct (search_catch_outcome NODE_ENV e
                  (World (cache w1) (clock w1 + ms)
                     (trace w1 ++ [UpstreamGet search_url
                                     (search_params q (quality_of req))])))
        as (resp & -> & Hst).
      eexists _, _. repeat split; [lia|]. simpl. rewrite <- app_assoc.
      eexists. reflexivity.
    + rewrite setCache_spec. simpl.
      eexists _, _. repeat split; [discriminate|]. simpl. rewrite <- app_assoc.
      eexists. reflexivity.
  - rewrite (axios_get_fails _ _ _ ms e) by exact Hnet.
    destruct (search_catch_outcome NODE_ENV e
                (World (cache w1) (clock w1 + ms)
                   (trace w1 ++ [UpstreamGet search_url
                                   (search_params q (quality_of req))])))
      as (resp & -> & Hst).
    eexists _, _. repeat split; [lia|]. simpl. rewrite <- app_assoc.
    eexists. reflexivity.
Qed.

Lemma trending_outcome (w : world) :
  exists cached w1 resp w',
    getCached "trending" w = (inr cached, w1)
    /\ trending net w = (inr resp, w')
    /\ (if truthy cached then w' = w1
        else exists evs, trace w' = trace w1 ++ UpstreamGet trending_url [] :: evs).
Proof.
  destruct (getCached_total "trending" w) as (cached & w1 & Hget & _).
  exists cached, w1. unfold trending, trending_try, try_catch, bind. rewrite Hget.
  destruct (truthy cached) eqn:Hhit.
  { eexists _, _. repeat split. }
  destruct (net trending_url []) as [ms d|ms e] eqn:Hnet.
  - rewrite (axios_get_responds _ trending_url [] ms d) by exact Hnet.
    destruct (noVideoList d).
    { eexists _, _. repeat split. exists []. reflexivity. }
    unfold lift.
    destruct (normalizeVideos trendingRecord (get "videos" (get "data" d)))
      as [e|videos].
    + rewrite trending_catch_outcome. eexists _, _. repeat split. simpl.
      rewrite <- app_assoc. eexists. reflexivity.
    + rewrite setCache_spec. simpl. eexists _, _. repeat split. simpl.
      rewrite <- app_assoc. eexists. reflexivity.
  - rewrite (axios_get_fails _ trending_url [] ms e) by exact Hnet.
    rewrite trending_catch_outcome. eexists _, _. repeat split. simpl.
    rewrite <- app_assoc. eexists. reflexivity.
Qed.

End HandlerPaths.

(** A read that misses keeps missing as long as the entry is not rewritten. *)
Lemma miss_persists (key : string) (w w1 : world) (cached : value) :
  getCached key w = (inr cached, w1) -> truthy cached = false ->
  forall w2, cache w2 = cache w1 ->
    exists c2 w3 evs,
      getCached key w2 = (inr c2, w3) /\ truthy c2 = false
      /\ trace w3 = trace w2 ++ CacheGet key :: evs.
Proof.
  intros Hget Hmiss w2 Hc.
  assert (Hinv : forall it, cache w1 !! key = Some it -> truthy (data it) = false).
  { intros it Hit. destruct (cache w !! key) as [it0|] eqn:Hk.
    - destruct (Z.le_gt_cases (clock w) (expiry it0)) as [Hle|Hgt].
      + rewrite (getCached_fresh key it0 w Hk Hle) in Hget.
        inversion Hget; subst. simpl in Hit. congruence.
      + rewrite (getCached_stale key it0 w Hk) in Hget by lia.
        inversion Hget; subst. simpl in Hit. rewrite lookup_delete_eq in Hit.
        discriminate.
    - rewrite (getCached_absent key w Hk) in Hget. inversion Hget; subst.
      simpl in Hit. congruence. }
  rewrite <- Hc in Hinv.
  destruct (cache w2 !! key) as [it|] eqn:Hk.
  - destruct (Z.le_gt_cases (clock w2) (expiry it)) as [Hle|Hgt].
    + rewrite (getCached_fresh key it w2 Hk Hle).
      eexists _, _, []. repeat split. apply Hinv. reflexivity.
    + rewrite (getCached_stale key it w2 Hk) by lia.
      eexists _, _, [CacheDelete key]. repeat split.
  - rewrite (getCached_absent key w2 Hk). eexists _, _, []. repeat split.
Qed.

(** C7, as the code has it.  [/api/search] answers 400 with the example
    payload when [q] is absent or empty, and 400 when [q] is longer than 100
    characters; in both cases the world is left exactly as it was: no cache
    read, no cache write, no upstream call.  A non-empty [q] of at most 100
    characters passes: the answer is not a 400 and the first thing the
    handler does is read the cache under the search key. *)
Theorem search_validation (NODE_ENV : option string)
    (net : string -> list (string * value) -> upstream_outcome)
    (req : request) (w : world) :
  (req_q req = None \/ req_q req = Some "" ->
     search NODE_ENV net req w = (inr missing_q, w)
     /\ status missing_q = 400
     /\ get "example" (body missing_q) = VStr "/api/search?q=spider+man")
  /\ (forall q, req_q req = Some q -> (100 < String.length q)%nat ->
        search NODE_ENV net req w = (inr q_too_long, w)
        /\ status q_too_long = 400)
  /\ (forall q, req_q req = Some q -> q <> "" -> (String.length q <= 100)%nat ->
        exists resp w' evs,
          search NODE_ENV net req w = (inr resp, w')
          /\ status resp <> 400
          /\ trace w' =
               trace w ++ CacheGet (search_cacheKey q (quality_of req)) :: evs).
Proof.
  split; [| split].
  - intros Hq. split; [| split; reflexivity].
    apply search_missing. destruct Hq as [-> | ->]; reflexivity.
  - intros q Hq Hlen. split; [| reflexivity].
    apply (search_too_long _ _ _ q); assumption.
  - intros q Hq Hne Hlen.
    destruct (search_valid_outcome NODE_ENV net req q w)
      as (cached & w1 & resp & w' & Hget & Hs & Hst & Hpath);
      [repeat split; assumption|].
    destruct (getCached_total (search_cacheKey q (quality_of req)) w)
      as (c' & w1' & Hget' & _ & _ & _ & evs & Htr & _).
    rewrite Hget in Hget'. inversion Hget'; subst c' w1'; clear Hget'.
    exists resp, w'. destruct (truthy cached).
    + subst w'. exists evs. repeat split; assumption.
    + destruct Hpath as (evs' & Htr'). eexists. repeat split; try assumption.
      rewrite Htr', Htr, <- app_assoc. reflexivity.
Qed.

Lemma search_validation_witness :
  search None net_timeout (Request None None) world0 = (inr missing_q, world0)
  /\ search None net_timeout (Request (Some (letters 101)) None) world0
       = (inr q_too_long, world0)
  /\ exists resp w' evs,
       search None net_timeout (Request (Some (letters 100)) None) world0
         = (inr resp, w')
       /\ status resp <> 400
       /\ trace w' = trace world0
            ++ CacheGet (search_cacheKey (letters 100) "low") :: evs.
Proof.
  split; [| split].
  - destruct (search_validation None net_timeout (Request None None) world0)
      as (Hmissing & _ & _).
    apply Hmissing. left. reflexivity.
  - destruct (search_validation None net_timeout
                (Request (Some (letters 101)) None) world0) as (_ & Hlong & _).
    apply (Hlong (letters 101)); [reflexivity | vm_compute; lia].
  - destruct (search_validation None net_timeout
                (Request (Some (letters 100)) None) world0) as (_ & _ & Hpass).
    apply (Hpass (letters 100)); [reflexivity | discriminate | vm_compute; lia].
Defined.

(** C7 as worded: the empty [q] has at most 100 characters, and it is
    rejected with 400. *)
Lemma search_validation_empty_q_counterexample :
  (String.length "" <= 100)%nat
  /\ search None net_one_video (Request (Some "") None) world0 = (inr missing_q, world0)
  /\ status missing_q = 400.
Proof. split; [simpl; lia | split; reflexivity]. Qed.

(** C8.  On a cache hit both handlers answer 200 with
    [{ ...cached, cached: true }] and do nothing else: no upstream call and
    no cache write.  In that body [cached] is [true], whatever the stored
    object held under that key, and every other top-level field reads as in
    the stored result. *)
Theorem cache_hit_merges_flag (NODE_ENV : option string)
    (net : string -> list (string * value) -> upstream_outcome)
    (key : string) (w w1 : world) (cached : value) :
  getCached key w = (inr cached, w1) ->
  truthy cached = true ->
  (forall req q, valid_query req q -> key = search_cacheKey q (quality_of req) ->
     search NODE_ENV net req w = (inr (Response 200 (hit_body cached)), w1))
  /\ (key = "trending" ->
        trending net w = (inr (Response 200 (hit_body cached)), w1))
  /\ w1 = emit (CacheGet key) w
  /\ get "cached" (hit_body cached) = VBool true
  /\ (forall k, k <> "cached" ->
        get k (hit_body cached) = lookup_prop k (own_props cached))
  /\ (forall fields, cached = VObj fields ->
        (forall k, k <> "cached" -> get k (hit_body cached) = get k cached)
        /\ (get "cached" cached = VBool false ->
              map fst (own_props (hit_body cached)) = map fst fields)).
Proof.
  intros Hget Hhit. split; [| split; [| split; [| split; [| split]]]].
  - intros req q Hv ->. apply (search_hit _ _ _ q); assumption.
  - intros ->. apply trending_hit; assumption.
  - destruct (cache w !! key) as [it|] eqn:Hk.
    + destruct (Z.le_gt_cases (clock w) (expiry it)) as [Hle|Hgt].
      * rewrite (getCached_fresh key it w Hk Hle) in Hget. congruence.
      * rewrite (getCached_stale key it w Hk) in Hget by lia.
        inversion Hget; subst. discriminate Hhit.
    + rewrite (getCached_absent key w Hk) in Hget.
      inversion Hget; subst. discriminate Hhit.
  - apply lookup_set_prop_eq.
  - intros k Hk. apply lookup_set_prop_ne. exact Hk.
  - intros fields ->. split.
    + intros k Hk. apply (lookup_set_prop_ne "cached" k). exact Hk.
    + intros Hflag. apply set_prop_keys, lookup_prop_key.
      change (get "cached" (VObj fields) <> VUndef). rewrite Hflag. discriminate.
Qed.

Lemma cache_hit_merges_flag_witness :
  let stored := search_result "cats" [] in
  let w := snd (setCache (search_cacheKey "cats" "low") stored world0) in
  fst (search None net_timeout (Request (Some "cats") None) w)
    = inr (Response 200 (hit_body stored))
  /\ get "cached" (hit_body stored) = VBool true
  /\ get "query" (hit_body stored) = VStr "cats".
Proof.
  intros stored w.
  destruct (cache_hit_merges_flag None net_timeout (search_cacheKey "cats" "low")
              w (emit (CacheGet (search_cacheKey "cats" "low")) w) stored
              eq_refl eq_refl)
    as (Hsearch & _ & _ & Hflag & _ & Hobj).
  split; [| split].
  - rewrite (Hsearch (Request (Some "cats") None) "cats"); [reflexivity | | reflexivity].
    split; [reflexivity | split; [discriminate | simpl; lia]].
  - exact Hflag.
  - destruct (Hobj _ eq_refl) as [Hother _]. rewrite Hother; [reflexivity | discriminate].
Defined.

Lemma append_assoc (a b c : string) : (a +:+ b) +:+ c = a +:+ (b +:+ c).
Proof.
  induction a as [|ch a IH]; [reflexivity|].
  change (String ch ((a +:+ b) +:+ c) = String ch (a +:+ (b +:+ c))).
  f_equal. exact IH.
Qed.

(** C9.  The key of a search is not injective in [(q, quality)]: a colon can
    be moved from the query into the quality.  The requests [q = "a:high",
    quality = "low"] and [q = "a", quality = "high:low"] share the key
    ["search:a:high:low"], and once the first has been answered from
    upstream and stored, the second is served that stored answer, whose
    [query] is ["a:high"], without any upstream call, for as long as the
    entry lives. *)
Theorem search_cacheKey_not_injective :
  search_cacheKey "a:high" "low" = "search:a:high:low"
  /\ search_cacheKey "a" "high:low" = "search:a:high:low"
  /\ ("a:high", "low") <> ("a", "high:low")
  /\ (forall q x quality,
        search_cacheKey (q +:+ ":" +:+ x) quality
          = search_cacheKey q (x +:+ ":" +:+ quality))
  /\ forall NODE_ENV net net' (w : world) ms d videos,
       let first := Request (Some "a:high") (Some "low") in
       let second := Request (Some "a") (Some "high:low") in
       cache w !! "search:a:high:low" = None ->
       net search_url (search_params "a:high" "low") = Responds ms d ->
       noVideoList d = false ->
       normalizeVideos searchRecord (get "videos" (get "data" d)) = inr videos ->
       fst (search NODE_ENV net first w)
         = inr (Response 200 (search_result "a:high" videos))
       /\ forall w2,
            cache w2 = cache (snd (search NODE_ENV net first w)) ->
            clock w2 <= clock w + ms + 300000 ->
            search NODE_ENV net' second w2
              = (inr (Response 200 (hit_body (search_result "a:high" videos))),
                 emit (CacheGet "search:a:high:low") w2)
            /\ get "query" (hit_body (search_result "a:high" videos)) = VStr "a:high"
            /\ get "cached" (hit_body (search_result "a:high" videos)) = VBool true.
Proof.
  split; [reflexivity|]. split; [reflexivity|]. split; [discriminate|]. split.
  { intros q x quality. unfold search_cacheKey.
    rewrite !append_assoc. reflexivity. }
  intros NODE_ENV net net' w ms d videos first second Hnone Hnet Hlist Hnorm.
  assert (Hfirst : valid_query first "a:high").
  { split; [reflexivity | split; [discriminate | simpl; lia]]. }
  assert (Hsecond : valid_query second "a").
  { split; [reflexivity | split; [discriminate | simpl; lia]]. }
  rewrite (search_miss_stored NODE_ENV net first "a:high" w
             (emit (CacheGet "search:a:high:low") w) VNull ms d videos Hfirst
             (getCached_absent _ _ Hnone) eq_refl Hnet Hlist Hnorm).
  split; [reflexivity|]. intros w2 Hc Hclock. split; [| split; reflexivity].
  apply (search_hit NODE_ENV net' second "a" w2); [exact Hsecond | | reflexivity].
  change (search_cacheKey "a" (quality_of second)) with "search:a:high:low".
  apply (getCached_fresh "search:a:high:low"
           (Item (search_result "a:high" videos) (clock w + ms + 300000))).
  - rewrite Hc. simpl. apply lookup_insert_eq.
  - simpl. exact Hclock.
Qed.

Lemma search_cacheKey_not_injective_witness :
  let first := Request (Some "a:high") (Some "low") in
  let second := Request (Some "a") (Some "high:low") in
  let w1 := snd (search None net_one_video first world0) in
  exists videos,
    fst (search None net_one_video first world0)
      = inr (Response 200 (search_result "a:high" videos))
    /\ search None net_timeout second w1
         = (inr (Response 200 (hit_body (search_result "a:high" videos))),
            emit (CacheGet "search:a:high:low") w1).
Proof.
  intros first second w1.
  destruct search_cacheKey_not_injective as (_ & _ & _ & _ & Hserved).
  destruct (Hserved None net_one_video net_timeout world0 120
              (VObj [("data",
                      VObj [("videos",
                             VArr [VObj [("video_id", VStr "7");
                                         ("play", VStr "https://v/7.mp4")]])])])
              [searchFields (VObj [("video_id", VStr "7");
                                   ("play", VStr "https://v/7.mp4")])]
              eq_refl eq_refl eq_refl eq_refl) as (Hfirst & Hsecond).
  eexists. split; [exact Hfirst|].
  apply (Hsecond w1); [reflexivity | vm_compute; discriminate].
Defined.

(** C10.  When upstream answers with a payload that has no video list, both
    handlers reply with the empty result, which has no [cached] field, and
    write nothing: the cache is what the preceding read left, and the only
    event after that read is the upstream call.  The same request handled
    later on that cache calls upstream again. *)
Theorem empty_result_not_cached (NODE_ENV : option string)
    (net : string -> list (string * value) -> upstream_outcome)
    (w w1 : world) (cached : value) (ms : Z) (d : value) :
  truthy cached = false ->
  noVideoList d = true ->
  (forall req q,
     valid_query req q ->
     getCached (search_cacheKey q (quality_of req)) w = (inr cached, w1) ->
     net search_url (search_params q (quality_of req)) = Responds ms d ->
     exists w',
       search NODE_ENV net req w = (inr (search_empty q), w')
       /\ get "cached" (body (search_empty q)) = VUndef
       /\ cache w' = cache w1
       /\ trace w' = trace w1
            ++ [UpstreamGet search_url (search_params q (quality_of req))]
       /\ forall net2 w2, cache w2 = cache w' ->
            exists pre post,
              trace (snd (search NODE_ENV net2 req w2))
                = trace w2 ++ pre
                    ++ UpstreamGet search_url (search_params q (quality_of req))
                    :: post)
  /\ (getCached "trending" w = (inr cached, w1) ->
      net trending_url [] = Responds ms d ->
      exists w',
        trending net w = (inr trending_empty, w')
        /\ get "cached" (body trending_empty) = VUndef
        /\ cache w' = cache w1
        /\ trace w' = trace w1 ++ [UpstreamGet trending_url []]
        /\ forall net2 w2, cache w2 = cache w' ->
             exists pre post,
               trace (snd (trending net2 w2))
                 = trace w2 ++ pre ++ UpstreamGet trending_url [] :: post).
Proof.
  intros Hmiss Hno. split.
  - intros req q Hv Hget Hnet.
    rewrite (search_miss_empty NODE_ENV net req q w w1 cached ms d) by assumption.
    eexists. split; [reflexivity|]. repeat split.
    intros net2 w2 Hc. simpl in Hc.
    destruct (miss_persists _ _ _ _ Hget Hmiss w2 Hc)
      as (c2 & w3 & evs & Hget2 & Hmiss2 & Htr2).
    destruct (search_valid_outcome NODE_ENV net2 req q w2 Hv)
      as (c2' & w3' & resp & w' & Hget2' & -> & _ & Hpath).
    rewrite Hget2 in Hget2'. inversion Hget2'; subst c2' w3'; clear Hget2'.
    rewrite Hmiss2 in Hpath. destruct Hpath as (post & Htr).
    exists (CacheGet (search_cacheKey q (quality_of req)) :: evs), post.
    simpl. rewrite Htr, Htr2, <- app_assoc. reflexivity.
  - intros Hget Hnet.
    rewrite (trending_miss_empty net w w1 cached ms d) by assumption.
    eexists. split; [reflexivity|]. repeat split.
    intros net2 w2 Hc. simpl in Hc.
    destruct (miss_persists _ _ _ _ Hget Hmiss w2 Hc)
      as (c2 & w3 & evs & Hget2 & Hmiss2 & Htr2).
    destruct (trending_outcome net2 w2)
      as (c2' & w3' & resp & w' & Hget2' & -> & Hpath).
    rewrite Hget2 in Hget2'. inversion Hget2'; subst c2' w3'; clear Hget2'.
    rewrite Hmiss2 in Hpath. destruct Hpath as (post & Htr).
    exists (CacheGet "trending" :: evs), post.
    simpl. rewrite Htr, Htr2, <- app_assoc. reflexivity.
Qed.

Lemma empty_result_not_cached_witness :
  (exists w',
     search None net_no_list (Request (Some "cats") None) world0
       = (inr (search_empty "cats"), w')
     /\ cache w' = cache world0)
  /\ (exists w',
        trending net_no_list world0 = (inr trending_empty, w')
        /\ cache w' = cache world0).
Proof.
  split.
  - destruct (empty_result_not_cached None net_no_list world0
                (emit (CacheGet (search_cacheKey "cats" "low")) world0) VNull 120
                (VObj [("code", VNum (-1)); ("msg", VStr "Free Api Limit")])
                eq_refl eq_refl) as (Hsearch & _).
    destruct (Hsearch (Request (Some "cats") None) "cats") as (w' & Hs & _ & Hc & _).
    + split; [reflexivity | split; [discriminate | simpl; lia]].
    + reflexivity.
    + reflexivity.
    + exists w'. split; [exact Hs | exact Hc].
  - destruct (empty_result_not_cached None net_no_list world0
                (emit (CacheGet "trending") world0) VNull 120
                (VObj [("code", VNum (-1)); ("msg", VStr "Free Api Limit")])
                eq_refl eq_refl) as (_ & Htrending).
    destruct (Htrending eq_refl eq_refl) as (w' & Ht & _ & Hc & _).
    exists w'. split; [exact Ht | exact Hc].
Defined.

(** ** Library tree builder *)

Section Sorting.

Context {A : Type} (cmp : A -> A -> Z).

(** A consistent comparator: the sign flips with the arguments, and
    "not after" is transitive. *)
Hypothesis cmp_flip : forall a b, Z.sgn (cmp b a) = - Z.sgn (cmp a b).
Hypothesis cmp_trans : forall a b c, cmp a b <= 0 -> cmp b c <= 0 -> cmp a c <= 0.

Lemma insert_by_perm (x : A) (l : list A) : insert_by cmp x l ≡ₚ x :: l.
Proof.
  induction l as [|y l IH]; simpl; [reflexivity|].
  destruct (cmp x y <=? 0); [reflexivity|].
  rewrite IH. apply Permutation_swap.
Qed.

Lemma js_sort_perm (l : list A) : js_sort cmp l ≡ₚ l.
Proof.
  induction l as [|x l IH]; simpl; [reflexivity|].
  rewrite insert_by_perm, IH. reflexivity.
Qed.

Lemma insert_by_sorted (x : A) (l : list A) :
  StronglySorted (not_after cmp) l -> StronglySorted (not_after cmp) (insert_by cmp x l).
Proof.
  induction 1 as [|y l Hl IH Hy]; simpl.
  - repeat constructor.
  - destruct (Z.leb_spec (cmp x y) 0) as [Hle|Hgt].
    + constructor; [constructor; assumption|].
      constructor; [exact Hle|].
      eapply Forall_impl; [exact Hy|]. intros z Hz. exact (cmp_trans _ _ _ Hle Hz).
    + constructor; [exact IH|].
      rewrite insert_by_perm. constructor; [| exact Hy].
      unfold not_after. pose proof (cmp_flip x y). lia.
Qed.

Lemma js_sort_sorted (l : list A) : StronglySorted (not_after cmp) (js_sort cmp l).
Proof.
  induction l as [|x l IH]; simpl; [constructor | apply insert_by_sorted, IH].
Qed.

Lemma sorted_lookup (l : list A) (i j : nat) (a b : A) :
  StronglySorted (not_after cmp) l -> (i < j)%nat ->
  l !! i = Some a -> l !! j = Some b -> cmp a b <= 0.
Proof.
  intros Hs. revert i j. induction Hs as [|x l Hl IH Hx]; intros i j Hij Hi Hj.
  - discriminate.
  - destruct j as [|j]; [lia|]. simpl in Hj. destruct i as [|i]; simpl in Hi.
    + inversion Hi; subst. rewrite Forall_forall in Hx.
      apply Hx. eapply list_elem_of_lookup_2. exact Hj.
    + apply (IH i j); [lia | assumption | assumption].
Qed.

End Sorting.

Lemma mapM_inr {A B} (f : A -> M B) (l : list A) (w w' : world) (ys : list B) :
  mapM f l w = (inr ys, w') ->
  Forall2 (fun x y => exists w0 w1, f x w0 = (inr y, w1)) l ys.
Proof.
  revert w ys. induction l as [|x l IH]; simpl; intros w ys H.
  - inversion H. constructor.
  - unfold bind in H. destruct (f x w) as [[e|y] w1] eqn:Hx; [discriminate|].
    destruct (mapM f l w1) as [[e|ys'] w2] eqn:Hl; [discriminate|].
    inversion H; subst. constructor; [eauto | eapply IH; exact Hl].
Qed.

Lemma mapM_total {A B} (f : A -> M B) (l : list A) :
  Forall (fun x => forall w, exists y w', f x w = (inr y, w')) l ->
  forall w, exists ys w', mapM f l w = (inr ys, w').
Proof.
  induction 1 as [|x l Hx _ IH]; intros w; simpl.
  - eexists _, _. reflexivity.
  - unfold bind. destruct (Hx w) as (y & w1 & ->).
    destruct (IH w1) as (ys & w2 & ->). eexists _, _. reflexivity.
Qed.

(** Induction over a directory tree, with the hypothesis for every entry of
    a listed directory. *)
Lemma fsnode_nested_ind (P : fsnode -> Prop)
    (Hfile : forall size mtime, P (FsFile size mtime))
    (Hdir : forall entries, Forall (fun e => P (snd e)) entries -> P (FsDir entries))
    (Hdenied : forall err, P (FsDenied err))
    (Hnostat : forall err, P (FsNoStat err)) :
  forall n, P n.
Proof.
  fix IH 1. intros [size mtime|entries|err|err].
  - apply Hfile.
  - apply Hdir. induction entries as [|e entries IHentries]; constructor.
    + apply IH.
    + exact IHentries.
  - apply Hdenied.
  - apply Hnostat.
Qed.

Section LibraryFacts.

Variable localeCompare : string -> string -> Z.
Variable sep : string.
Variable scandir_error : string -> exn.

Local Abbreviation readTree := (readComicsTree localeCompare sep scandir_error).
Local Abbreviation compareN := (compareNodes localeCompare).

Lemma readComicsTree_dir (baseUrl relPath : string)
    (entries : list (string * fsnode)) :
  readTree baseUrl relPath (FsDir entries) =
    try_catch
      (nodes <- mapM (readEntry sep baseUrl relPath)
                  (filter (fun e => visible (fst e)) (with_calls localeCompare sep scandir_error baseUrl entries)) ;;
       ret (js_sort compareN nodes))
      on_error.
Proof. reflexivity. Qed.

(** A directory that cannot be listed: one line on the console and an
    empty sequence. *)
Lemma readComicsTree_unlistable (baseUrl relPath : string) (absDir : fsnode)
    (w : world) :
  (forall entries, absDir <> FsDir entries) ->
  readTree baseUrl relPath absDir w =
    (inr [],
     emit (ConsoleError
             ("readComicsTree error: " +:+ err_message (readdir_error scandir_error relPath absDir))) w).
Proof.
  intros Hno. destruct absDir as [size mtime|entries|err|err];
    try reflexivity.
  destruct (Hno entries eq_refl).
Qed.

(** The builder never throws. *)
Lemma readComicsTree_total (baseUrl relPath : string) (absDir : fsnode) (w : world) :
  exists items w', readTree baseUrl relPath absDir w = (inr items, w').
Proof.
  destruct absDir as [size mtime|entries|err|err];
    try (eexists _, _; reflexivity).
  rewrite readComicsTree_dir. unfold try_catch, bind.
  destruct (mapM _ _ w) as [[e|nodes] w1]; eexists _, _; reflexivity.
Qed.

End LibraryFacts.

Lemma tree_ordered_nil (localeCompare : string -> string -> Z) :
  tree_ordered localeCompare [].
Proof.
  constructor.
  - intros i j a b _ Hi. discriminate.
  - intros name path children Hin. inversion Hin.
Qed.

Lemma Forall2_elem_of_r {A B} (R : A -> B -> Prop) (l : list A) (k : list B) (y : B) :
  Forall2 R l k -> y ∈ k -> exists x, x ∈ l /\ R x y.
Proof.
  induction 1 as [|x y' l k Hxy _ IH]; intros Hin.
  - inversion Hin.
  - apply elem_of_cons in Hin as [->|Hin].
    + exists x. split; [left | exact Hxy].
    + destruct (IH Hin) as (x' & Hx' & HR). exists x'. split; [right|]; assumption.
Qed.

Section LibraryOrder.

Variable localeCompare : string -> string -> Z.
Variable sep : string.
Variable scandir_error : string -> exn.

Hypothesis localeCompare_flip :
  forall a b, Z.sgn (localeCompare b a) = - Z.sgn (localeCompare a b).
Hypothesis localeCompare_trans :
  forall a b c, localeCompare a b <= 0 -> localeCompare b c <= 0 ->
                localeCompare a c <= 0.

Local Abbreviation readTree := (readComicsTree localeCompare sep scandir_error).
Local Abbreviation compareN := (compareNodes localeCompare).

Lemma compareNodes_flip (a b : LibraryNode) :
  Z.sgn (compareN b a) = - Z.sgn (compareN a b).
Proof.
  destruct a, b; unfold compareNodes; cbn;
    first [reflexivity | apply localeCompare_flip].
Qed.

Lemma compareNodes_trans (a b c : LibraryNode) :
  compareN a b <= 0 -> compareN b c <= 0 -> compareN a c <= 0.
Proof.
  destruct a, b, c; unfold compareNodes; cbn;
    first [lia | apply localeCompare_trans].
Qed.

Lemma compareNodes_order (a b : LibraryNode) :
  compareN a b <= 0 ->
  ~ (node_type a = "file" /\ node_type b = "dir")
  /\ (node_type a = node_type b ->
      localeCompare (node_name a) (node_name b) <= 0).
Proof.
  destruct a, b; unfold compareNodes; cbn; intros H; split;
    try (intros [? ?]; discriminate); try (intros ?; discriminate);
    try (intros _; exact H); lia.
Qed.

Lemma js_sort_level_ordered (nodes : list LibraryNode) :
  level_ordered localeCompare (js_sort compareN nodes).
Proof.
  intros i j a b Hij Hi Hj. apply compareNodes_order.
  apply (sorted_lookup compareN (js_sort compareN nodes) i j); try assumption.
  apply js_sort_sorted; [apply compareNodes_flip | apply compareNodes_trans].
Qed.

Lemma readEntry_dir_inv (baseUrl relPath name : string) (n : fsnode)
    (recurse : string -> M (list LibraryNode)) (w0 w1 : world)
    (nm path : string) (children : list LibraryNode) :
  readEntry sep baseUrl relPath (name, (n, recurse)) w0
    = (inr (DirNode nm path children), w1) ->
  exists rel, recurse rel w0 = (inr children, w1) /\ nm = name /\ is_directory n.
Proof.
  unfold readEntry, bind.
  destruct n as [size mtime|entries|err|err]; simpl; intros H;
    try discriminate.
  - destruct (recurse _ w0) as [[e|ch] w'] eqn:Hr; [discriminate|].
    inversion H; subst. eexists. repeat split. exact Hr.
  - destruct (recurse _ w0) as [[e|ch] w'] eqn:Hr; [discriminate|].
    inversion H; subst. eexists. repeat split. exact Hr.
Qed.

Lemma readComicsTree_ordered (absDir : fsnode) :
  forall baseUrl relPath w items w',
    readTree baseUrl relPath absDir w = (inr items, w') ->
    tree_ordered localeCompare items.
Proof.
  induction absDir as [size mtime|entries IH|err|err] using fsnode_nested_ind;
    intros baseUrl relPath w items w' H;
    try (rewrite readComicsTree_unlistable in H by discriminate;
         inversion H; apply tree_ordered_nil).
  rewrite readComicsTree_dir in H. unfold try_catch, bind in H.
  destruct (mapM _ _ w) as [[e|nodes] w1] eqn:Hm.
  { inversion H. apply tree_ordered_nil. }
  inversion H; subst; clear H. constructor.
  - apply js_sort_level_ordered.
  - intros name path children Hin.
    rewrite (js_sort_perm compareN nodes) in Hin.
    apply mapM_inr in Hm.
    destruct (Forall2_elem_of_r _ _ _ _ Hm Hin) as (x & Hx & w0 & w2 & Hread).
    apply list_elem_of_filter in Hx as [_ Hx].
    unfold with_calls in Hx. apply list_elem_of_In, in_map_iff in Hx.
    destruct Hx as (e & <- & He).
    apply readEntry_dir_inv in Hread as (rel & Hrec & _ & _).
    rewrite Forall_forall in IH.
    apply (IH e (proj2 (list_elem_of_In _ _) He) baseUrl rel w0 children w2 Hrec).
Qed.

End LibraryOrder.

Lemma mapM_cons_inr {A B} (f : A -> M B) (x : A) (l : list A) (y : B) (ys : list B)
    (w w1 w2 : world) :
  f x w = (inr y, w1) -> mapM f l w1 = (inr ys, w2) ->
  mapM f (x :: l) w = (inr (y :: ys), w2).
Proof. intros Hx Hl. simpl. unfold bind. rewrite Hx, Hl. reflexivity. Qed.

Lemma readEntry_file (sep baseUrl relPath name : string) (size mtime : Z)
    (recurse : string -> M (list LibraryNode)) (w : world) :
  readEntry sep baseUrl relPath (name, (FsFile size mtime, recurse)) w =
    (inr (FileNode name (slashes (entry_rel sep relPath name)) size mtime
            (baseUrl +:+ "/" +:+ slashes (entry_rel sep relPath name))), w).
Proof. reflexivity. Qed.

Lemma readEntry_dir (sep baseUrl relPath name : string) (n : fsnode)
    (recurse : string -> M (list LibraryNode)) (w w' : world)
    (children : list LibraryNode) :
  is_directory n ->
  recurse (entry_rel sep relPath name) w = (inr children, w') ->
  readEntry sep baseUrl relPath (name, (n, recurse)) w =
    (inr (DirNode name (slashes (entry_rel sep relPath name)) children), w').
Proof.
  intros Hdir Hrec. unfold readEntry, bind. fold (entry_rel sep relPath name).
  destruct n; try contradiction; simpl; rewrite Hrec; reflexivity.
Qed.

Lemma readEntry_nostat (sep baseUrl relPath name : string) (err : exn)
    (recurse : string -> M (list LibraryNode)) (w : world) :
  readEntry sep baseUrl relPath (name, (FsNoStat err, recurse)) w = (inl err, w).
Proof. reflexivity. Qed.

Section CompareNodes.

Variable localeCompare : string -> string -> Z.

Lemma compareNodes_dir_file n p c n' p' s m u :
  compareNodes localeCompare (DirNode n p c) (FileNode n' p' s m u) = -1.
Proof. reflexivity. Qed.

Lemma compareNodes_file_dir n p c n' p' s m u :
  compareNodes localeCompare (FileNode n' p' s m u) (DirNode n p c) = 1.
Proof. reflexivity. Qed.

Lemma compareNodes_file_file n p s m u n' p' s' m' u' :
  compareNodes localeCompare (FileNode n p s m u) (FileNode n' p' s' m' u')
    = localeCompare n n'.
Proof. reflexivity. Qed.

Lemma compareNodes_dir_dir n p c n' p' c' :
  compareNodes localeCompare (DirNode n p c) (DirNode n' p' c')
    = localeCompare n n'.
Proof. reflexivity. Qed.

End CompareNodes.

Lemma tree_order_example_aux (localeCompare : string -> string -> Z) (sep : string) (scandir_error : string -> exn) (baseUrl : string)
    (entries : list (string * fsnode)) (s1 m1 s2 m2 : Z) (sub : fsnode) (w : world) :
  localeCompare "a.txt" "b.txt" < 0 -> 0 < localeCompare "b.txt" "a.txt" ->
  entries ≡ₚ [("b.txt", FsFile s1 m1); ("a.txt", FsFile s2 m2); ("c", sub)] ->
  is_directory sub ->
  exists children w',
    readComicsTree localeCompare sep scandir_error baseUrl "" (FsDir entries) w =
      (inr [ DirNode "c" "c" children;
             FileNode "a.txt" "a.txt" s2 m2 (baseUrl +:+ "/" +:+ "a.txt");
             FileNode "b.txt" "b.txt" s1 m1 (baseUrl +:+ "/" +:+ "b.txt") ], w').
Proof.
  intros Hab Hba Hperm Hdir.
  assert (Hab' : (localeCompare "a.txt" "b.txt" <=? 0) = true) by (apply Z.leb_le; lia).
  assert (Hba' : (localeCompare "b.txt" "a.txt" <=? 0) = false) by (apply Z.leb_gt; lia).
  destruct (readComicsTree_total localeCompare sep scandir_error baseUrl "c" sub w)
    as (children & w' & Hrec).
  exists children, w'.
  symmetry in Hperm. apply permutations_Permutation in Hperm.
  cbv [permutations mbind list_bind interleave fmap list_fmap mret list_ret app] in Hperm.
  repeat (apply elem_of_cons in Hperm as [->|Hperm]); [.. | inversion Hperm];
    rewrite readComicsTree_dir; unfold try_catch, bind, with_calls;
    cbn [map fst snd];
    repeat (rewrite filter_cons_True by reflexivity); rewrite filter_nil;
    (erewrite mapM_cons_inr;
       [| first [apply readEntry_file | apply readEntry_dir; [exact Hdir | exact Hrec]]
        | erewrite mapM_cons_inr;
            [reflexivity
            | first [apply readEntry_file | apply readEntry_dir; [exact Hdir | exact Hrec]]
            | erewrite mapM_cons_inr;
                [reflexivity
                | first [apply readEntry_file | apply readEntry_dir; [exact Hdir | exact Hrec]]
                | reflexivity ]]]).
  all: unfold ret, js_sort; cbn [foldr insert_by].
  all: repeat (rewrite ?compareNodes_dir_file, ?compareNodes_file_dir,
                 ?compareNodes_file_file, ?Hab', ?Hba';
               change (1 <=? 0) with false; change (-1 <=? 0) with true;
               cbn [insert_by]).
  all: reflexivity.
Qed.

(** C4.  With [localeCompare] a consistent comparator, the sequence the
    builder returns for any directory, and the [children] of every [dir]
    node in it, have no [file] node before a [dir] node, and nodes of the
    same type in the order of [localeCompare] on their names.  When the
    collation puts "a.txt" before "b.txt", a directory holding the files
    "b.txt" and "a.txt" and the subdirectory "c", listed in any order,
    yields [dir "c"; file "a.txt"; file "b.txt"]. *)
Theorem library_tree_order (localeCompare : string -> string -> Z) (sep : string)
    (scandir_error : string -> exn) :
  (forall a b, Z.sgn (localeCompare b a) = - Z.sgn (localeCompare a b)) ->
  (forall a b c, localeCompare a b <= 0 -> localeCompare b c <= 0 ->
                 localeCompare a c <= 0) ->
  (forall baseUrl relPath absDir w,
     exists items w',
       readComicsTree localeCompare sep scandir_error baseUrl relPath absDir w = (inr items, w')
       /\ tree_ordered localeCompare items)
  /\ (localeCompare "a.txt" "b.txt" < 0 ->
      forall baseUrl entries s1 m1 s2 m2 sub w,
        entries ≡ₚ [("b.txt", FsFile s1 m1); ("a.txt", FsFile s2 m2); ("c", sub)] ->
        is_directory sub ->
        exists children w',
          readComicsTree localeCompare sep scandir_error baseUrl "" (FsDir entries) w =
            (inr [ DirNode "c" "c" children;
                   FileNode "a.txt" "a.txt" s2 m2 (baseUrl +:+ "/" +:+ "a.txt");
                   FileNode "b.txt" "b.txt" s1 m1 (baseUrl +:+ "/" +:+ "b.txt") ],
             w')).
Proof.
  intros Hflip Htrans. split.
  - intros baseUrl relPath absDir w.
    destruct (readComicsTree_total localeCompare sep scandir_error baseUrl relPath absDir w)
      as (items & w' & Hread).
    exists items, w'. split; [exact Hread|].
    eapply readComicsTree_ordered; eassumption.
  - intros Hab baseUrl entries s1 m1 s2 m2 sub w Hperm Hdir.
    apply (tree_order_example_aux localeCompare sep scandir_error baseUrl entries s1 m1 s2 m2 sub w);
      try assumption.
    pose proof (Hflip "a.txt" "b.txt"). lia.
Qed.

Lemma library_tree_order_witness :
  exists children w',
    readComicsTree first_byte_compare "/" ENOTDIR_at "/comics" ""
      (FsDir [("b.txt", FsFile 10 1); ("a.txt", FsFile 20 2); ("c", FsDir [])]) world0 =
      (inr [ DirNode "c" "c" children;
             FileNode "a.txt" "a.txt" 20 2 "/comics/a.txt";
             FileNode "b.txt" "b.txt" 10 1 "/comics/b.txt" ], w').
Proof.
  assert (Hflip : forall a b,
             Z.sgn (first_byte_compare b a) = - Z.sgn (first_byte_compare a b))
    by (intros a b; unfold first_byte_compare; lia).
  assert (Htrans : forall a b c,
             first_byte_compare a b <= 0 -> first_byte_compare b c <= 0 ->
             first_byte_compare a c <= 0)
    by (intros a b c; unfold first_byte_compare; lia).
  destruct (library_tree_order first_byte_compare "/" ENOTDIR_at Hflip Htrans) as [_ Hexample].
  apply (Hexample ltac:(vm_compute; reflexivity) "/comics"
           [("b.txt", FsFile 10 1); ("a.txt", FsFile 20 2); ("c", FsDir [])]
           10 1 20 2 (FsDir []) world0); [reflexivity | exact I].
Defined.

Lemma only_logs_refl (w : world) : only_logs w w.
Proof. repeat split. exists []. rewrite app_nil_r. reflexivity. Qed.

Lemma only_logs_trans (w1 w2 w3 : world) :
  only_logs w1 w2 -> only_logs w2 w3 -> only_logs w1 w3.
Proof.
  intros (Hc1 & Ht1 & evs1 & He1) (Hc2 & Ht2 & evs2 & He2).
  repeat split; [congruence | congruence |].
  exists (evs1 ++ evs2). rewrite He2, He1, app_assoc. reflexivity.
Qed.

Lemma only_logs_emit (w : world) (msg : string) :
  only_logs w (emit (ConsoleError msg) w).
Proof. repeat split. eexists. reflexivity. Qed.

Lemma logged_emit (w : world) (e : event) : logged w (emit e w) e.
Proof. exists [e]. split; [reflexivity | left]. Qed.

Lemma logged_widen (w0 w1 w2 w3 : world) (e : event) :
  only_logs w0 w1 -> logged w1 w2 e -> only_logs w2 w3 -> logged w0 w3 e.
Proof.
  intros (_ & _ & evs1 & He1) (evs & He & Hin) (_ & _ & evs2 & He2).
  exists (evs1 ++ evs ++ evs2). split.
  - rewrite He2, He, He1, <- !app_assoc. reflexivity.
  - rewrite !elem_of_app. tauto.
Qed.

Lemma mapM_only_logs {A B} (f : A -> M B) (l : list A) :
  (forall x, x ∈ l -> forall w r w', f x w = (r, w') -> only_logs w w') ->
  forall w r w', mapM f l w = (r, w') -> only_logs w w'.
Proof.
  induction l as [|x l IH]; intros Hf w r w' H; simpl in H.
  - inversion H. apply only_logs_refl.
  - unfold bind in H. destruct (f x w) as [[e|y] w1] eqn:Hx.
    + inversion H; subst. eapply Hf; [left | exact Hx].
    + assert (H1 : only_logs w w1) by (eapply Hf; [left | exact Hx]).
      destruct (mapM f l w1) as [[e|ys] w2] eqn:Hl;
        inversion H; subst;
        (eapply only_logs_trans; [exact H1|]);
        (eapply IH; [intros x' Hx'; apply Hf; right; exact Hx' | exact Hl]).
Qed.

Section Containment.

Variable localeCompare : string -> string -> Z.
Variable sep : string.
Variable scandir_error : string -> exn.

Local Abbreviation readTree := (readComicsTree localeCompare sep scandir_error).
Local Abbreviation compareN := (compareNodes localeCompare).

Lemma readEntry_only_logs (baseUrl relPath name : string) (n : fsnode)
    (recurse : string -> M (list LibraryNode)) :
  (forall rel w r w', recurse rel w = (r, w') -> only_logs w w') ->
  forall w r w',
    readEntry sep baseUrl relPath (name, (n, recurse)) w = (r, w') ->
    only_logs w w'.
Proof.
  intros Hrec w r w'. unfold readEntry, bind.
  destruct n as [size mtime|entries|err|err]; simpl; intros H;
    try (inversion H; apply only_logs_refl).
  - destruct (recurse _ w) as [[e|ch] w1] eqn:Hr; inversion H; subst;
      eapply Hrec; exact Hr.
  - destruct (recurse _ w) as [[e|ch] w1] eqn:Hr; inversion H; subst;
      eapply Hrec; exact Hr.
Qed.

Lemma readComicsTree_only_logs (absDir : fsnode) :
  forall baseUrl relPath w r w',
    readTree baseUrl relPath absDir w = (r, w') -> only_logs w w'.
Proof.
  induction absDir as [size mtime|entries IH|err|err] using fsnode_nested_ind;
    intros baseUrl relPath w r w' H;
    try (rewrite readComicsTree_unlistable in H by discriminate;
         inversion H; apply only_logs_emit).
  rewrite readComicsTree_dir in H. unfold try_catch, bind in H.
  destruct (mapM _ _ w) as [[e|nodes] w1] eqn:Hm.
  - assert (H1 : only_logs w w1).
    { eapply mapM_only_logs; [| exact Hm].
      intros x Hx. apply list_elem_of_filter in Hx as [_ Hx].
      unfold with_calls in Hx. apply list_elem_of_In, in_map_iff in Hx.
      destruct Hx as (en & <- & Hen). apply readEntry_only_logs.
      intros rel w0 r0 w0'. rewrite Forall_forall in IH.
      apply (IH en (proj2 (list_elem_of_In _ _) Hen)). }
    inversion H; subst. eapply only_logs_trans; [exact H1 | apply only_logs_emit].
  - inversion H; subst.
    eapply mapM_only_logs; [| exact Hm].
    intros x Hx. apply list_elem_of_filter in Hx as [_ Hx].
    unfold with_calls in Hx. apply list_elem_of_In, in_map_iff in Hx.
    destruct Hx as (en & <- & Hen). apply readEntry_only_logs.
    intros rel w0 r0 w0'. rewrite Forall_forall in IH.
    apply (IH en (proj2 (list_elem_of_In _ _) Hen)).
Qed.

Lemma with_calls_filter (baseUrl : string) (entries : list (string * fsnode)) :
  filter (fun e => visible (fst e)) (with_calls localeCompare sep scandir_error baseUrl entries)
  = with_calls localeCompare sep scandir_error baseUrl (filter (fun e => visible (fst e)) entries).
Proof.
  induction entries as [|e entries IH]; [reflexivity|].
  unfold with_calls in *. cbn [map].
  destruct (decide (visible (fst e))) as [Hv|Hv].
  - rewrite !filter_cons_True by exact Hv. cbn [map]. rewrite IH. reflexivity.
  - rewrite !filter_cons_False by exact Hv. exact IH.
Qed.

(** Entries that can all be stat-ed give one node each, in listing order;
    a directory among them that cannot be listed gives a [dir] node without
    children and a line on the console. *)
Lemma readEntries_statable (baseUrl relPath : string) (es : list (string * fsnode)) :
  Forall (fun e => statable (snd e)) es ->
  forall w, exists nodes w',
    mapM (readEntry sep baseUrl relPath) (with_calls localeCompare sep scandir_error baseUrl es) w
      = (inr nodes, w')
    /\ map node_name nodes = map fst es
    /\ only_logs w w'
    /\ forall name err, (name, FsDenied err) ∈ es ->
         DirNode name (slashes (entry_rel sep relPath name)) [] ∈ nodes
         /\ logged w w' (ConsoleError ("readComicsTree error: " +:+ err_message err)).
Proof.
  induction 1 as [|[name n] es Hn _ IH]; intros w.
  - exists [], w. split; [reflexivity|]. split; [reflexivity|].
    split; [apply only_logs_refl|]. intros name err Hin. inversion Hin.
  - assert (Hhead : exists node w1,
               readEntry sep baseUrl relPath
                 (name, (n, fun rel => readTree baseUrl rel n)) w = (inr node, w1)
               /\ node_name node = name
               /\ only_logs w w1
               /\ (forall err, n = FsDenied err ->
                     node = DirNode name (slashes (entry_rel sep relPath name)) []
                     /\ w1 = emit (ConsoleError
                                     ("readComicsTree error: " +:+ err_message err)) w)).
    { destruct n as [size mtime|entries|err|err]; simpl in Hn; try contradiction.
      - eexists _, _. split; [apply readEntry_file|].
        split; [reflexivity|]. split; [apply only_logs_refl | discriminate].
      - destruct (readComicsTree_total localeCompare sep scandir_error baseUrl
                    (entry_rel sep relPath name) (FsDir entries) w)
          as (children & w1 & Hrec).
        eexists _, _. split; [apply readEntry_dir; [exact I | exact Hrec]|].
        split; [reflexivity|].
        split; [eapply readComicsTree_only_logs; exact Hrec | discriminate].
      - eexists _, _.
        split; [apply readEntry_dir;
                  [exact I | apply readComicsTree_unlistable; discriminate]|].
        split; [reflexivity|]. split; [apply only_logs_emit|].
        intros err' Heq. inversion Heq; subst. split; reflexivity. }
    destruct Hhead as (node & w1 & Hnode & Hname & H1 & Hdenied).
    destruct (IH w1) as (nodes & w' & Hnodes & Hnames & H2 & Hrest).
    exists (node :: nodes), w'. split.
    { unfold with_calls. cbn [map fst snd].
      eapply mapM_cons_inr; [exact Hnode | exact Hnodes]. }
    split; [cbn [map fst]; rewrite Hname, Hnames; reflexivity|].
    split; [eapply only_logs_trans; eassumption|].
    intros name' err Hin. apply elem_of_cons in Hin as [Heq|Hin].
    + inversion Heq; subst. destruct (Hdenied err eq_refl) as [-> ->].
      split; [left|].
      eapply logged_widen; [apply only_logs_refl | apply logged_emit | exact H2].
    + destruct (Hrest name' err Hin) as [Hd Hl]. split; [right; exact Hd|].
      eapply logged_widen; [exact H1 | exact Hl | apply only_logs_refl].
Qed.

End Containment.

(** C5, as the code has it.  A directory that cannot be listed makes the
    builder write one line to the console, with the message of the error
    [readdirSync] threw, and return the empty sequence; nothing is thrown.
    Under a root that can be listed and whose visible entries can all be
    stat-ed, the sequence has exactly one node per visible entry, so every
    sibling of an unlistable subdirectory is there, and that subdirectory is
    a [dir] node with no children, its failure being on the console.
    [/api/library] answers 200 with the tree whatever the directory holds. *)
Theorem fault_containment (localeCompare : string -> string -> Z) (sep : string)
    (scandir_error : string -> exn) :
  (forall baseUrl relPath absDir w,
     (forall entries, absDir <> FsDir entries) ->
     readComicsTree localeCompare sep scandir_error baseUrl relPath absDir w =
       (inr [],
        emit (ConsoleError
                ("readComicsTree error: " +:+ err_message (readdir_error scandir_error relPath absDir))) w))
  /\ (forall baseUrl relPath entries w,
        (forall name n, (name, n) ∈ entries -> visible name -> statable n) ->
        exists items w',
          readComicsTree localeCompare sep scandir_error baseUrl relPath (FsDir entries) w
            = (inr items, w')
          /\ map node_name items
               ≡ₚ map fst (filter (fun e => visible (fst e)) entries)
          /\ forall name err, (name, FsDenied err) ∈ entries -> visible name ->
               DirNode name (slashes (entry_rel sep relPath name)) [] ∈ items
               /\ logged w w'
                    (ConsoleError ("readComicsTree error: " +:+ err_message err)))
  /\ (forall comics w,
        exists items w',
          library localeCompare sep scandir_error comics w
            = (inr (LibraryResponse 200 "/comics" items), w')
          /\ readComicsTree localeCompare sep scandir_error "/comics" "" comics w = (inr items, w')
          /\ only_logs w w').
Proof.
  split; [| split].
  - intros baseUrl relPath absDir w Hno. apply readComicsTree_unlistable. exact Hno.
  - intros baseUrl relPath entries w Hstat.
    assert (Hvis : Forall (fun e => statable (snd e))
                     (filter (fun e => visible (fst e)) entries)).
    { apply Forall_forall. intros [name n] Hin.
      apply list_elem_of_filter in Hin as [Hv Hin]. exact (Hstat name n Hin Hv). }
    destruct (readEntries_statable localeCompare sep scandir_error baseUrl relPath _ Hvis w)
      as (nodes & w' & Hnodes & Hnames & _ & Hdenied).
    exists (js_sort (compareNodes localeCompare) nodes), w'. split.
    { rewrite readComicsTree_dir. unfold try_catch, bind.
      rewrite with_calls_filter, Hnodes. reflexivity. }
    split.
    { rewrite <- Hnames. apply Permutation_map, js_sort_perm. }
    intros name err Hin Hv.
    destruct (Hdenied name err) as [Hd Hl].
    { apply list_elem_of_filter. split; [exact Hv | exact Hin]. }
    split; [| exact Hl]. rewrite js_sort_perm. exact Hd.
  - intros comics w.
    destruct (readComicsTree_total localeCompare sep scandir_error "/comics" "" comics w)
      as (items & w' & Hread).
    exists items, w'. split; [| split].
    + unfold library, bind. rewrite Hread. reflexivity.
    + exact Hread.
    + eapply readComicsTree_only_logs. exact Hread.
Qed.

(** C5 as worded, without the condition on the siblings: next to the
    unlistable "locked" the root holds "gone", on which [statSync] throws.
    The root then lists nothing, so the sibling "zeta.txt" of "locked" is
    missing, while [/api/library] still answers 200. *)
Lemma fault_containment_sibling_counterexample :
  let root :=
    FsDir [ ("zeta.txt", FsFile 10 1);
            ("locked", FsDenied EACCES);
            ("gone", FsNoStat ENOENT) ] in
  fst (readComicsTree first_byte_compare "/" ENOTDIR_at "/comics" "" root world0)
    = inr []
  /\ fst (library first_byte_compare "/" ENOTDIR_at root world0)
       = inr (LibraryResponse 200 "/comics" []).
Proof. vm_compute. split; reflexivity. Qed.

Lemma fault_containment_witness :
  exists items w',
    readComicsTree first_byte_compare "/" ENOTDIR_at "/comics" ""
      (FsDir [ ("zeta.txt", FsFile 10 1);
               ("locked", FsDenied EACCES);
               ("alpha", FsDir [("1.png", FsFile 20 2)]) ]) world0
      = (inr items, w')
    /\ map node_name items ≡ₚ ["zeta.txt"; "locked"; "alpha"]
    /\ DirNode "locked" "locked" [] ∈ items.
Proof.
  destruct (fault_containment first_byte_compare "/" ENOTDIR_at) as (_ & Hnested & _).
  destruct (Hnested "/comics" ""
              [ ("zeta.txt", FsFile 10 1);
                ("locked", FsDenied EACCES);
                ("alpha", FsDir [("1.png", FsFile 20 2)]) ] world0)
    as (items & w' & Hread & Hnames & Hdenied).
  - intros name n Hin _.
    repeat (apply elem_of_cons in Hin as [Heq|Hin];
            [inversion Heq; subst; exact I|]).
    inversion Hin.
  - exists items, w'. split; [exact Hread|]. split; [exact Hnames|].
    apply (Hdenied "locked" EACCES); [right; left | reflexivity].
Defined.

Example library_unlistable_subdirectory :
  library first_byte_compare "/" ENOTDIR_at
    (FsDir [ ("zeta.txt", FsFile 10 1);
             ("locked", FsDenied EACCES);
             ("alpha", FsDir [("1.png", FsFile 20 2)]) ]) world0
  = (inr (LibraryResponse 200 "/comics"
            [ DirNode "alpha" "alpha"
                [FileNode "1.png" "alpha/1.png" 20 2 "/comics/alpha/1.png"];
              DirNode "locked" "locked" [];
              FileNode "zeta.txt" "zeta.txt" 10 1 "/comics/zeta.txt" ]),
     World ∅ 0
       [ConsoleError "readComicsTree error: EACCES: permission denied, scandir"]).
Proof. vm_compute. reflexivity. Qed.

(** * Further properties of the handlers *)

Lemma search_catch_cases (NODE_ENV : option string) (e : exn) (w : world) :
  exists resp,
    search_catch NODE_ENV e w =
      (inr resp, emit (ConsoleError ("Error: " +:+ err_message e)) w)
    /\ (err_code e = Some "ECONNABORTED" -> status resp = 504)
    /\ (err_code e <> Some "ECONNABORTED" -> err_status e = Some 429 ->
        status resp = 429)
    /\ (err_code e <> Some "ECONNABORTED" -> err_status e <> Some 429 ->
        resp = search_failed NODE_ENV e).
Proof.
  unfold search_catch, console_error, bind, act.
  destruct (bool_decide_reflect (err_code e = Some "ECONNABORTED")) as [Hc|Hc].
  - eexists. split; [reflexivity|].
    repeat split; intros; try contradiction; reflexivity.
  - destruct (bool_decide_reflect (err_status e = Some 429)) as [Hs|Hs].
    + eexists. split; [reflexivity|].
      repeat split; intros; try contradiction; reflexivity.
    + eexists. split; [reflexivity|].
      repeat split; intros; try contradiction; reflexivity.
Qed.

(** X1.  When the upstream call of a search fails, the answer is 504 if the
    error code is ECONNABORTED, otherwise 429 if the upstream status is 429,
    otherwise 500, whose message is the error text only in development;
    the timeout test comes first.  In every case the error goes to the
    console and the cache is not written. *)
Theorem search_upstream_failure (NODE_ENV : option string)
    (net : string -> list (string * value) -> upstream_outcome)
    (req : request) (q : string) (w w1 : world) (cached : value) (ms : Z) (e : exn) :
  valid_query req q ->
  getCached (search_cacheKey q (quality_of req)) w = (inr cached, w1) ->
  truthy cached = false ->
  net search_url (search_params q (quality_of req)) = Fails ms e ->
  exists resp,
    search NODE_ENV net req w =
      (inr resp,
       World (cache w1) (clock w1 + ms)
         (trace w1 ++ [ UpstreamGet search_url (search_params q (quality_of req));
                        ConsoleError ("Error: " +:+ err_message e) ]))
    /\ (err_code e = Some "ECONNABORTED" -> status resp = 504)
    /\ (err_code e <> Some "ECONNABORTED" -> err_status e = Some 429 ->
        status resp = 429)
    /\ (err_code e <> Some "ECONNABORTED" -> err_status e <> Some 429 ->
        resp = search_failed NODE_ENV e).
Proof.
  intros Hv Hget Hmiss Hnet. rewrite (search_valid _ _ _ q) by exact Hv.
  unfold try_catch, bind. rewrite Hget, Hmiss.
  rewrite (axios_get_fails _ _ _ ms e) by exact Hnet.
  destruct (search_catch_cases NODE_ENV e
              (World (cache w1) (clock w1 + ms)
                 (trace w1 ++ [UpstreamGet search_url
                                 (search_params q (quality_of req))])))
    as (resp & Hcatch & Hcases).
  exists resp. split; [| exact Hcases].
  rewrite Hcatch. unfold emit. simpl. rewrite <- app_assoc. reflexivity.
Qed.

Lemma search_upstream_failure_witness :
  exists resp w',
    search None (fun _ _ => Fails 8000 rate_limited_timeout)
      (Request (Some "cats") None) world0 = (inr resp, w')
    /\ status resp = 504
    /\ cache w' = cache world0.
Proof.
  destruct (search_upstream_failure None (fun _ _ => Fails 8000 rate_limited_timeout)
              (Request (Some "cats") None) "cats" world0
              (emit (CacheGet (search_cacheKey "cats" "low")) world0) VNull 8000
              rate_limited_timeout)
    as (resp & Hs & H504 & _).
  - split; [reflexivity | split; [discriminate | simpl; lia]].
  - reflexivity.
  - reflexivity.
  - reflexivity.
  - eexists resp, _. split; [exact Hs|]. split; [apply H504; reflexivity | reflexivity].
Defined.

(** X2.  When the upstream call of the trending feed fails, the answer is
    500 with one fixed body whatever the error is: a timeout and a rate
    limit are not told apart.  The error goes to the console and the cache
    is not written. *)
Theorem trending_upstream_failure
    (net : string -> list (string * value) -> upstream_outcome)
    (w w1 : world) (cached : value) (ms : Z) (e : exn) :
  getCached "trending" w = (inr cached, w1) ->
  truthy cached = false ->
  net trending_url [] = Fails ms e ->
  trending net w =
    (inr trending_failed,
     World (cache w1) (clock w1 + ms)
       (trace w1 ++ [ UpstreamGet trending_url [];
                      ConsoleError ("Error: " +:+ err_message e) ])).
Proof.
  intros Hget Hmiss Hnet. unfold trending, trending_try, try_catch, bind.
  rewrite Hget, Hmiss.
  rewrite (axios_get_fails _ trending_url [] ms e) by exact Hnet.
  rewrite trending_catch_outcome. unfold emit. simpl. rewrite <- app_assoc.
  reflexivity.
Qed.

Lemma trending_upstream_failure_witness :
  fst (trending (fun _ _ => Fails 8000 rate_limited_timeout) world0)
    = inr trending_failed.
Proof.
  rewrite (trending_upstream_failure (fun _ _ => Fails 8000 rate_limited_timeout)
             world0 (emit (CacheGet "trending") world0) VNull 8000
             rate_limited_timeout eq_refl eq_refl eq_refl).
  reflexivity.
Defined.

Lemma js_map_nullish (callback : value -> result value) (l : list value) :
  callback = searchRecord \/ callback = trendingRecord ->
  (exists v, v ∈ l /\ nullish v = true) ->
  exists e, js_map callback l = inl e /\ plain_error e.
Proof.
  intros Hcb (v & Hin & Hnull). induction l as [|x l IH]; [inversion Hin|].
  simpl. destruct (callback x) as [e|y] eqn:Hx.
  - exists e. split; [reflexivity|].
    destruct Hcb as [-> | ->]; unfold searchRecord, trendingRecord in Hx;
      destruct (nullish x); inversion Hx; split; reflexivity.
  - apply elem_of_cons in Hin as [->|Hin].
    + destruct Hcb as [-> | ->]; unfold searchRecord, trendingRecord in Hx;
        rewrite Hnull in Hx; discriminate.
    + destruct (IH Hin) as (e & -> & He). exists e. split; [reflexivity | exact He].
Qed.

Lemma normalizeVideos_malformed (callback : value -> result value) (videos : value) :
  callback = searchRecord \/ callback = trendingRecord ->
  malformed_list videos ->
  exists e, normalizeVideos callback videos = inl e /\ plain_error e.
Proof.
  intros Hcb Hbad. destruct videos as [| |b|n|s|l|ps];
    try (eexists; split; [reflexivity | split; reflexivity]).
  unfold normalizeVideos. destruct (js_map_nullish callback l Hcb Hbad) as (e & -> & He).
  exists e. split; [reflexivity | exact He].
Qed.

(** X3.  A payload whose video list is not an array, or holds a [null]
    entry, makes both handlers answer 500: the whole request fails on the one
    bad entry, the failure goes to the console, and nothing is stored. *)
Theorem malformed_list_fails (NODE_ENV : option string)
    (net : string -> list (string * value) -> upstream_outcome)
    (w w1 : world) (cached : value) (ms : Z) (d : value) :
  truthy cached = false ->
  noVideoList d = false ->
  malformed_list (get "videos" (get "data" d)) ->
  (forall req q,
     valid_query req q ->
     getCached (search_cacheKey q (quality_of req)) w = (inr cached, w1) ->
     net search_url (search_params q (quality_of req)) = Responds ms d ->
     exists e,
       search NODE_ENV net req w =
         (inr (search_failed NODE_ENV e),
          World (cache w1) (clock w1 + ms)
            (trace w1 ++ [ UpstreamGet search_url (search_params q (quality_of req));
                           ConsoleError ("Error: " +:+ err_message e) ])))
  /\ (getCached "trending" w = (inr cached, w1) ->
      net trending_url [] = Responds ms d ->
      exists e,
        trending net w =
          (inr trending_failed,
           World (cache w1) (clock w1 + ms)
             (trace w1 ++ [ UpstreamGet trending_url [];
                            ConsoleError ("Error: " +:+ err_message e) ]))).
Proof.
  intros Hmiss Hlist Hbad. split.
  - intros req q Hv Hget Hnet.
    destruct (normalizeVideos_malformed searchRecord _ (or_introl eq_refl) Hbad)
      as (e & Hnorm & Hcode & Hstatus).
    exists e. rewrite (search_valid _ _ _ q) by exact Hv.
    unfold try_catch, bind. rewrite Hget, Hmiss.
    rewrite (axios_get_responds _ _ _ ms d) by exact Hnet. rewrite Hlist.
    unfold lift. rewrite Hnorm.
    destruct (search_catch_cases NODE_ENV e
                (World (cache w1) (clock w1 + ms)
                   (trace w1 ++ [UpstreamGet search_url
                                   (search_params q (quality_of req))])))
      as (resp & -> & _ & _ & H500).
    rewrite H500 by congruence.
    unfold emit. simpl. rewrite <- app_assoc. reflexivity.
  - intros Hget Hnet.
    destruct (normalizeVideos_malformed trendingRecord _ (or_intror eq_refl) Hbad)
      as (e & Hnorm & _).
    exists e. unfold trending, trending_try, try_catch, bind. rewrite Hget, Hmiss.
    rewrite (axios_get_responds _ trending_url [] ms d) by exact Hnet. rewrite Hlist.
    unfold lift. rewrite Hnorm. rewrite trending_catch_outcome.
    unfold emit. simpl. rewrite <- app_assoc. reflexivity.
Qed.

Lemma malformed_list_fails_witness :
  exists e w',
    search None net_null_entry (Request (Some "cats") None) world0
      = (inr (search_failed None e), w')
    /\ cache w' = cache world0.
Proof.
  destruct (malformed_list_fails None net_null_entry world0
              (emit (CacheGet (search_cacheKey "cats" "low")) world0) VNull 120
              (VObj [("data",
                      VObj [("videos",
                             VArr [VObj [("play", VStr "https://v/7.mp4")]; VNull])])])
              eq_refl eq_refl) as (Hsearch & _).
  - exists VNull. split; [right; left | reflexivity].
  - destruct (Hsearch (Request (Some "cats") None) "cats") as (e & Hs).
    + split; [reflexivity | split; [discriminate | simpl; lia]].
    + reflexivity.
    + reflexivity.
    + eexists e, _. split; [exact Hs | reflexivity].
Defined.

(** X4.  What a miss stores is what the next request gets.  After a search
    that missed and received a video list, the entry under its key holds the
    answer just sent and expires 300000 ms after the upstream reply; the
    same request, while the clock has not passed that expiry, is answered
    from the entry alone, with the same [videos], [count] and [query] and
    with [cached] turned to [true].  The trending feed behaves the same
    under its fixed key. *)
Theorem store_then_hit (NODE_ENV : option string)
    (net net' : string -> list (string * value) -> upstream_outcome)
    (w w1 : world) (cached : value) (ms : Z) (d : value) (videos : list value) :
  truthy cached = false ->
  noVideoList d = false ->
  (forall req q,
     valid_query req q ->
     getCached (search_cacheKey q (quality_of req)) w = (inr cached, w1) ->
     net search_url (search_params q (quality_of req)) = Responds ms d ->
     normalizeVideos searchRecord (get "videos" (get "data" d)) = inr videos ->
     let key := search_cacheKey q (quality_of req) in
     let stored := search_result q videos in
     let w' := snd (search NODE_ENV net req w) in
     fst (search NODE_ENV net req w) = inr (Response 200 stored)
     /\ cache w' !! key = Some (Item stored (clock w1 + ms + 300000))
     /\ forall w2,
          cache w2 !! key = cache w' !! key ->
          clock w2 <= clock w1 + ms + 300000 ->
          search NODE_ENV net' req w2
            = (inr (Response 200 (hit_body stored)), emit (CacheGet key) w2)
          /\ get "videos" (hit_body stored) = VArr videos
          /\ get "count" (hit_body stored) = VNum (Z.of_nat (length videos))
          /\ get "query" (hit_body stored) = VStr q
          /\ get "cached" (hit_body stored) = VBool true)
  /\ (getCached "trending" w = (inr cached, w1) ->
      net trending_url [] = Responds ms d ->
      normalizeVideos trendingRecord (get "videos" (get "data" d)) = inr videos ->
      let stored := trending_result videos in
      let w' := snd (trending net w) in
      fst (trending net w) = inr (Response 200 stored)
      /\ cache w' !! "trending" = Some (Item stored (clock w1 + ms + 300000))
      /\ forall w2,
           cache w2 !! "trending" = cache w' !! "trending" ->
           clock w2 <= clock w1 + ms + 300000 ->
           trending net' w2
             = (inr (Response 200 (hit_body stored)), emit (CacheGet "trending") w2)
           /\ get "videos" (hit_body stored) = VArr videos
           /\ get "count" (hit_body stored) = VNum (Z.of_nat (length videos))
           /\ get "cached" (hit_body stored) = VBool true).
Proof.
  intros Hmiss Hlist. split.
  - intros req q Hv Hget Hnet Hnorm key stored w'. subst w'.
    rewrite (search_miss_stored NODE_ENV net req q w w1 cached ms d videos)
      by assumption.
    simpl. split; [reflexivity|]. split; [apply lookup_insert_eq|].
    intros w2 Hc Hclock. rewrite lookup_insert_eq in Hc.
    split; [| repeat split].
    apply (search_hit NODE_ENV net' req q w2); [exact Hv | | reflexivity].
    apply (getCached_fresh key (Item stored (clock w1 + ms + 300000)) w2 Hc).
    exact Hclock.
  - intros Hget Hnet Hnorm stored w'. subst w'.
    rewrite (trending_miss_stored net w w1 cached ms d videos) by assumption.
    simpl. split; [reflexivity|]. split; [apply lookup_insert_eq|].
    intros w2 Hc Hclock. rewrite lookup_insert_eq in Hc.
    split; [| repeat split].
    apply (trending_hit net' w2); [| reflexivity].
    apply (getCached_fresh "trending" (Item stored (clock w1 + ms + 300000)) w2 Hc).
    exact Hclock.
Qed.

Lemma store_then_hit_witness :
  let req := Request (Some "cats") (Some "high") in
  let w' := snd (search None net_one_video req world0) in
  exists stored,
    fst (search None net_one_video req world0) = inr (Response 200 stored)
    /\ search None net_timeout req (at_time 300120 w')
         = (inr (Response 200 (hit_body stored)),
            emit (CacheGet "search:cats:high") (at_time 300120 w')).
Proof.
  intros req w'.
  destruct (store_then_hit None net_one_video net_timeout world0
              (emit (CacheGet "search:cats:high") world0) VNull 120
              (VObj [("data",
                      VObj [("videos",
                             VArr [VObj [("video_id", VStr "7");
                                         ("play", VStr "https://v/7.mp4")]])])])
              [searchFields (VObj [("video_id", VStr "7");
                                   ("play", VStr "https://v/7.mp4")])]
              eq_refl eq_refl) as (Hsearch & _).
  destruct (Hsearch req "cats") as (Hfirst & _ & Hnext).
  - split; [reflexivity | split; [discriminate | simpl; lia]].
  - reflexivity.
  - reflexivity.
  - reflexivity.
  - eexists. split; [exact Hfirst|].
    apply (Hnext (at_time 300120 w')); [reflexivity | vm_compute; discriminate].
Defined.

(** X5.  A stale entry is never served and is no fallback.  When the clock
    has passed the expiry of the entry under a search's key, the handler
    deletes the entry and calls upstream, whatever the entry held: a reply
    with a video list replaces the entry, and a failed call leaves the key
    without any entry. *)
Theorem stale_entry_refetched (NODE_ENV : option string)
    (net : string -> list (string * value) -> upstream_outcome)
    (req : request) (q : string) (w : world) (it : item) :
  valid_query req q ->
  cache w !! search_cacheKey q (quality_of req) = Some it ->
  expiry it < clock w ->
  let key := search_cacheKey q (quality_of req) in
  let call := UpstreamGet search_url (search_params q (quality_of req)) in
  (forall ms d videos,
     net search_url (search_params q (quality_of req)) = Responds ms d ->
     noVideoList d = false ->
     normalizeVideos searchRecord (get "videos" (get "data" d)) = inr videos ->
     search NODE_ENV net req w =
       (inr (Response 200 (search_result q videos)),
        World (<[key := Item (search_result q videos) (clock w + ms + 300000)]> (cache w))
          (clock w + ms)
          (trace w ++ [CacheGet key; CacheDelete key; call; CacheSet key])))
  /\ (forall ms e,
        net search_url (search_params q (quality_of req)) = Fails ms e ->
        exists resp w',
          search NODE_ENV net req w = (inr resp, w')
          /\ status resp <> 200
          /\ cache w' = delete key (cache w)
          /\ cache w' !! key = None).
Proof.
  intros Hv Hk Hstale key call.
  pose proof (getCached_stale key it w Hk Hstale) as Hget.
  split.
  - intros ms d videos Hnet Hlist Hnorm.
    rewrite (search_miss_stored NODE_ENV net req q w _ VNull ms d videos Hv Hget
               eq_refl Hnet Hlist Hnorm).
    simpl. rewrite insert_delete_eq, <- app_assoc. reflexivity.
  - intros ms e Hnet.
    rewrite (search_valid _ _ _ q) by exact Hv.
    unfold try_catch, bind. fold key. rewrite Hget.
    cbn [truthy]. rewrite (axios_get_fails _ _ _ ms e) by exact Hnet.
    match goal with
    | |- context [search_catch NODE_ENV e ?W] =>
        destruct (search_catch_outcome NODE_ENV e W) as (resp & -> & Hst)
    end.
    exists resp. eexists. split; [reflexivity|].
    split; [lia|]. split; [reflexivity | apply lookup_delete_eq].
Qed.

Lemma stale_entry_refetched_witness :
  let w := at_time 300001
             (snd (setCache "search:cats:low" (search_result "cats" []) world0)) in
  exists resp w',
    search None net_timeout (Request (Some "cats") None) w = (inr resp, w')
    /\ status resp <> 200
    /\ cache w' !! "search:cats:low" = None.
Proof.
  intros w.
  destruct (stale_entry_refetched None net_timeout (Request (Some "cats") None)
              "cats" w (Item (search_result "cats" []) 300000)) as (_ & Hfail).
  - split; [reflexivity | split; [discriminate | simpl; lia]].
  - reflexivity.
  - simpl. lia.
  - destruct (Hfail 8000 (Exn (Some "ECONNABORTED") None "timeout of 8000ms exceeded")
                eq_refl) as (resp & w' & Hs & Hst & _ & Hgone).
    exists resp, w'. split; [exact Hs | split; [exact Hst | exact Hgone]].
Defined.

Lemma upstream_calls_app (a b : list event) :
  upstream_calls (a ++ b) = (upstream_calls a + upstream_calls b)%nat.
Proof. unfold upstream_calls. rewrite filter_app, length_app. reflexivity. Qed.

Lemma upstream_calls_deletes (key : string) (evs : list event) :
  Forall (fun e => e = CacheDelete key) evs -> upstream_calls evs = 0%nat.
Proof.
  induction 1 as [|e evs -> _ IH]; [reflexivity|].
  change (CacheDelete key :: evs) with ([CacheDelete key] ++ evs).
  rewrite upstream_calls_app, IH. reflexivity.
Qed.

Lemma search_cacheKey_not_trending (q quality : string) :
  search_cacheKey q quality <> "trending".
Proof. unfold search_cacheKey. discriminate. Qed.

(** Every request is of one of three kinds. *)
Lemma request_cases (req : request) :
  truthy (param (req_q req)) = false
  \/ (exists q, req_q req = Some q /\ (100 < String.length q)%nat)
  \/ (exists q, valid_query req q).
Proof.
  destruct (req_q req) as [q|] eqn:Hq; [| left; reflexivity].
  destruct (String.eqb_spec q "") as [->|Hne]; [left; reflexivity|].
  destruct (le_lt_dec (String.length q) 100) as [Hle|Hgt].
  - right. right. exists q. unfold valid_query. rewrite Hq. auto.
  - right. left. exists q. auto.
Qed.

Section HandlerEffects.

Variable NODE_ENV : option string.
Variable net : string -> list (string * value) -> upstream_outcome.

(** What a valid search does after its cache read: nothing on a hit, and on
    a miss one upstream call followed by at most a write under its own key
    or a line on the console. *)
Lemma search_valid_effects (req : request) (q : string) (w : world) :
  valid_query req q ->
  exists cached w1 resp w' tail,
    getCached (search_cacheKey q (quality_of req)) w = (inr cached, w1)
    /\ search NODE_ENV net req w = (inr resp, w')
    /\ trace w' = trace w1 ++ tail
    /\ upstream_calls tail = (if truthy cached then 0 else 1)%nat
    /\ (forall k, k <> search_cacheKey q (quality_of req) ->
          cache w' !! k = cache w1 !! k).
Proof.
  intros Hv.
  destruct (getCached_total (search_cacheKey q (quality_of req)) w)
    as (cached & w1 & Hget & _).
  exists cached, w1. rewrite (search_valid _ _ _ q) by exact Hv.
  unfold try_catch, bind. rewrite Hget.
  destruct (truthy cached) eqn:Hhit.
  { eexists _, _, []. rewrite app_nil_r. repeat split. }
  destruct (net search_url (search_params q (quality_of req))) as [ms d|ms e] eqn:Hnet.
  - rewrite (axios_get_responds _ _ _ ms d) by exact Hnet.
    destruct (noVideoList d).
    { eexists _, _, _. repeat split. }
    unfold lift.
    destruct (normalizeVideos searchRecord (get "videos" (get "data" d)))
      as [e|videos].
    + match goal with
      | |- context [search_catch NODE_ENV e ?W] =>
          destruct (search_catch_outcome NODE_ENV e W) as (resp & -> & _)
      end.
      eexists _, _, _. split; [reflexivity|]. split; [reflexivity|].
      split; [simpl; rewrite <- app_assoc; reflexivity|].
      split; [reflexivity | intros k Hk; reflexivity].
    + rewrite setCache_spec. simpl.
      eexists _, _, _. split; [reflexivity|]. split; [reflexivity|].
      split; [simpl; rewrite <- app_assoc; reflexivity|].
      split; [reflexivity|].
      intros k Hk. simpl. apply lookup_insert_ne. congruence.
  - rewrite (axios_get_fails _ _ _ ms e) by exact Hnet.
    match goal with
    | |- context [search_catch NODE_ENV e ?W] =>
        destruct (search_catch_outcome NODE_ENV e W) as (resp & -> & _)
    end.
    eexists _, _, _. split; [reflexivity|]. split; [reflexivity|].
    split; [simpl; rewrite <- app_assoc; reflexivity|].
    split; [reflexivity | intros k Hk; reflexivity].
Qed.

Lemma trending_effects (w : world) :
  exists cached w1 resp w' tail,
    getCached "trending" w = (inr cached, w1)
    /\ trending net w = (inr resp, w')
    /\ trace w' = trace w1 ++ tail
    /\ upstream_calls tail = (if truthy cached then 0 else 1)%nat
    /\ (forall k, k <> "trending" -> cache w' !! k = cache w1 !! k).
Proof.
  destruct (getCached_total "trending" w) as (cached & w1 & Hget & _).
  exists cached, w1. unfold trending, trending_try, try_catch, bind. rewrite Hget.
  destruct (truthy cached) eqn:Hhit.
  { eexists _, _, []. rewrite app_nil_r. repeat split. }
  destruct (net trending_url []) as [ms d|ms e] eqn:Hnet.
  - rewrite (axios_get_responds _ trending_url [] ms d) by exact Hnet.
    destruct (noVideoList d).
    { eexists _, _, _. repeat split. }
    unfold lift.
    destruct (normalizeVideos trendingRecord (get "videos" (get "data" d)))
      as [e|videos].
    + rewrite trending_catch_outcome.
      eexists _, _, _. split; [reflexivity|]. split; [reflexivity|].
      split; [simpl; rewrite <- app_assoc; reflexivity|].
      split; [reflexivity | intros k Hk; reflexivity].
    + rewrite setCache_spec. simpl.
      eexists _, _, _. split; [reflexivity|]. split; [reflexivity|].
      split; [simpl; rewrite <- app_assoc; reflexivity|].
      split; [reflexivity|].
      intros k Hk. simpl. apply lookup_insert_ne. congruence.
  - rewrite (axios_get_fails _ trending_url [] ms e) by exact Hnet.
    rewrite trending_catch_outcome.
    eexists _, _, _. split; [reflexivity|]. split; [reflexivity|].
    split; [simpl; rewrite <- app_assoc; reflexivity|].
    split; [reflexivity | intros k Hk; reflexivity].
Qed.

End HandlerEffects.

(** X6.  A request changes the cache under its own key at most.  Whatever a
    search does, every entry under a key other than the request's own is as
    before, and a rejected request changes none; the trending feed changes
    only the entry "trending".  A search key is never "trending", so a
    search leaves the trending entry alone and the trending feed leaves every
    search entry alone. *)
Theorem handlers_touch_own_key (NODE_ENV : option string)
    (net : string -> list (string * value) -> upstream_outcome)
    (w : world) (k : string) :
  (forall req,
     (forall q, valid_query req q -> k <> search_cacheKey q (quality_of req)) ->
     cache (snd (search NODE_ENV net req w)) !! k = cache w !! k)
  /\ (k <> "trending" -> cache (snd (trending net w)) !! k = cache w !! k)
  /\ (forall req,
        cache (snd (search NODE_ENV net req w)) !! "trending"
          = cache w !! "trending")
  /\ (forall q quality,
        cache (snd (trending net w)) !! search_cacheKey q quality
          = cache w !! search_cacheKey q quality).
Proof.
  assert (Hsearch : forall req k',
             (forall q, valid_query req q -> k' <> search_cacheKey q (quality_of req)) ->
             cache (snd (search NODE_ENV net req w)) !! k' = cache w !! k').
  { intros req k' Hk. destruct (request_cases req) as [Hq|[(q & Hq & Hlen)|(q & Hv)]].
    - rewrite search_missing by exact Hq. reflexivity.
    - rewrite (search_too_long _ _ _ q) by assumption. reflexivity.
    - destruct (search_valid_effects NODE_ENV net req q w Hv)
        as (cached & w1 & resp & w' & tail & Hget & -> & _ & _ & Hframe).
      destruct (getCached_total (search_cacheKey q (quality_of req)) w)
        as (c' & w1' & Hget' & _ & Hread & _).
      rewrite Hget in Hget'. inversion Hget'; subst c' w1'.
      simpl. rewrite Hframe, Hread by (apply Hk, Hv). reflexivity. }
  assert (Htrending : forall k', k' <> "trending" ->
             cache (snd (trending net w)) !! k' = cache w !! k').
  { intros k' Hk.
    destruct (trending_effects net w)
      as (cached & w1 & resp & w' & tail & Hget & -> & _ & _ & Hframe).
    destruct (getCached_total "trending" w) as (c' & w1' & Hget' & _ & Hread & _).
    rewrite Hget in Hget'. inversion Hget'; subst c' w1'.
    simpl. rewrite Hframe, Hread by exact Hk. reflexivity. }
  split; [intros req; apply Hsearch|]. split; [apply Htrending|]. split.
  - intros req. apply Hsearch. intros q _ Heq.
    exact (search_cacheKey_not_trending q (quality_of req) (eq_sym Heq)).
  - intros q quality. apply Htrending, search_cacheKey_not_trending.
Qed.

Lemma handlers_touch_own_key_witness :
  let w := snd (setCache "trending" (trending_result []) world0) in
  cache (snd (search None net_one_video (Request (Some "cats") None) w)) !! "trending"
    = cache w !! "trending"
  /\ cache (snd (trending net_one_video world0)) !! "search:cats:low"
       = cache world0 !! "search:cats:low".
Proof.
  intros w. split.
  - destruct (handlers_touch_own_key None net_one_video w "trending")
      as (Hown & _).
    apply Hown. intros q _ Heq.
    exact (search_cacheKey_not_trending q _ (eq_sym Heq)).
  - destruct (handlers_touch_own_key None net_one_video world0 "search:cats:low")
      as (_ & Hother & _).
    apply Hother. discriminate.
Defined.

(** X12.  A request makes one upstream call or none, and never a second
    one: a search calls upstream exactly when its query passes validation
    and the cache read misses, the trending feed exactly when its cache read
    misses.  A failed call is not tried again. *)
Theorem one_upstream_call_per_miss (NODE_ENV : option string)
    (net : string -> list (string * value) -> upstream_outcome) (w : world) :
  (forall req,
     exists resp w' evs,
       search NODE_ENV net req w = (inr resp, w')
       /\ trace w' = trace w ++ evs
       /\ (upstream_calls evs <= 1)%nat
       /\ (upstream_calls evs = 1%nat <->
           exists q cached w1,
             valid_query req q
             /\ getCached (search_cacheKey q (quality_of req)) w = (inr cached, w1)
             /\ truthy cached = false))
  /\ (exists resp w' evs,
        trending net w = (inr resp, w')
        /\ trace w' = trace w ++ evs
        /\ (upstream_calls evs <= 1)%nat
        /\ (upstream_calls evs = 1%nat <->
            exists cached w1,
              getCached "trending" w = (inr cached, w1) /\ truthy cached = false)).
Proof.
  split.
  - intros req. destruct (request_cases req) as [Hq|[(q & Hq & Hlen)|(q & Hv)]].
    + rewrite search_missing by exact Hq. exists missing_q, w, [].
      rewrite app_nil_r. change (upstream_calls []) with 0%nat.
      split; [reflexivity|]. split; [reflexivity|]. split; [lia|].
      split; [discriminate|].
      intros (q & c & w1 & (Hs & Hne & _) & _). rewrite Hs in Hq.
      simpl in Hq. destruct q; [congruence | discriminate].
    + rewrite (search_too_long _ _ _ q) by assumption. exists q_too_long, w, [].
      rewrite app_nil_r. change (upstream_calls []) with 0%nat.
      split; [reflexivity|]. split; [reflexivity|]. split; [lia|].
      split; [discriminate|].
      intros (q' & c & w1 & (Hs & _ & Hle) & _). rewrite Hs in Hq.
      inversion Hq; subst. lia.
    + destruct (search_valid_effects NODE_ENV net req q w Hv)
        as (cached & w1 & resp & w' & tail & Hget & Hs & Htr & Hcalls & _).
      destruct (getCached_total (search_cacheKey q (quality_of req)) w)
        as (c' & w1' & Hget' & _ & _ & _ & dels & Hread & Hdels).
      rewrite Hget in Hget'. inversion Hget'; subst c' w1'.
      exists resp, w', ((CacheGet (search_cacheKey q (quality_of req)) :: dels) ++ tail).
      split; [exact Hs|]. split; [rewrite Htr, Hread, <- app_assoc; reflexivity|].
      rewrite upstream_calls_app.
      change (CacheGet (search_cacheKey q (quality_of req)) :: dels)
        with ([CacheGet (search_cacheKey q (quality_of req))] ++ dels).
      rewrite upstream_calls_app, (upstream_calls_deletes _ _ Hdels), Hcalls.
      change (upstream_calls [CacheGet (search_cacheKey q (quality_of req))])
        with 0%nat.
      destruct (truthy cached) eqn:Hhit; simpl; split; try lia.
      * split; [discriminate|].
        intros (q' & c & w2 & (Hs' & _) & Hget2 & Hmiss).
        destruct Hv as (Hq & _). rewrite Hq in Hs'. inversion Hs'; subst q'.
        rewrite Hget in Hget2. inversion Hget2; subst. congruence.
      * split; [| reflexivity]. intros _. exists q, cached, w1. auto.
  - destruct (trending_effects net w)
      as (cached & w1 & resp & w' & tail & Hget & Hs & Htr & Hcalls & _).
    destruct (getCached_total "trending" w)
      as (c' & w1' & Hget' & _ & _ & _ & dels & Hread & Hdels).
    rewrite Hget in Hget'. inversion Hget'; subst c' w1'.
    exists resp, w', ((CacheGet "trending" :: dels) ++ tail).
    split; [exact Hs|]. split; [rewrite Htr, Hread, <- app_assoc; reflexivity|].
    rewrite upstream_calls_app.
    change (CacheGet "trending" :: dels) with ([CacheGet "trending"] ++ dels).
    rewrite upstream_calls_app, (upstream_calls_deletes _ _ Hdels), Hcalls.
    change (upstream_calls [CacheGet "trending"]) with 0%nat.
    destruct (truthy cached) eqn:Hhit; simpl; split; try lia.
    + split; [discriminate|].
      intros (c & w2 & Hget2 & Hmiss). rewrite Hget in Hget2.
      inversion Hget2; subst. congruence.
    + split; [| reflexivity]. intros _. exists cached, w1. auto.
Qed.

Lemma list_ascii_of_append (a b : string) :
  String.list_ascii_of_string (a +:+ b)
  = String.list_ascii_of_string a ++ String.list_ascii_of_string b.
Proof.
  induction a as [|c a IH]; [reflexivity|].
  change (c :: String.list_ascii_of_string (a +:+ b)
          = c :: (String.list_ascii_of_string a ++ String.list_ascii_of_string b)).
  f_equal. exact IH.
Qed.

Lemma list_ascii_inj (a b : string) :
  String.list_ascii_of_string a = String.list_ascii_of_string b -> a = b.
Proof.
  intros H. rewrite <- (String.string_of_list_ascii_of_string a),
    <- (String.string_of_list_ascii_of_string b), H. reflexivity.
Qed.

Lemma append_inv_tail (a b s : string) : a +:+ s = b +:+ s -> a = b.
Proof.
  intros H. apply list_ascii_inj.
  apply (f_equal String.list_ascii_of_string) in H.
  rewrite !list_ascii_of_append in H. exact (app_inv_tail _ _ _ H).
Qed.

Lemma append_inv_head (s a b : string) : s +:+ a = s +:+ b -> a = b.
Proof.
  intros H. apply list_ascii_inj.
  apply (f_equal String.list_ascii_of_string) in H.
  rewrite !list_ascii_of_append in H. exact (app_inv_head _ _ _ H).
Qed.

Lemma low_is_not_high (a b : string) : a +:+ ":low" <> b +:+ ":high".
Proof.
  intros H. apply (f_equal String.list_ascii_of_string) in H.
  rewrite !list_ascii_of_append in H.
  change (String.list_ascii_of_string ":low")
    with ([":"; "l"; "o"]%char ++ ["w"%char]) in H.
  change (String.list_ascii_of_string ":high")
    with ([":"; "h"; "i"; "g"]%char ++ ["h"%char]) in H.
  rewrite !app_assoc in H. apply app_inj_tail in H as [_ H]. discriminate H.
Qed.

Lemma search_cacheKey_inj (q1 q2 quality1 quality2 : string) :
  (documented_quality quality1 -> documented_quality quality2 ->
   search_cacheKey q1 quality1 = search_cacheKey q2 quality2 ->
   q1 = q2 /\ quality1 = quality2)
  /\ (search_cacheKey q1 quality1 = search_cacheKey q2 quality1 -> q1 = q2).
Proof.
  unfold search_cacheKey. split.
  - intros Hd1 Hd2 H. apply append_inv_head in H.
    destruct Hd1 as [-> | ->], Hd2 as [-> | ->].
    + split; [| reflexivity]. exact (append_inv_tail _ _ _ H).
    + destruct (low_is_not_high _ _ H).
    + destruct (low_is_not_high _ _ (eq_sym H)).
    + split; [| reflexivity]. exact (append_inv_tail _ _ _ H).
  - intros H. apply append_inv_head in H. exact (append_inv_tail _ _ _ H).
Qed.

(** X13.  Among requests whose [q] is given once as a string: when the
    [quality] of each is absent or one of the two documented strings, two
    requests share a search key only if they have the same query and the
    same quality, the query being compared as it stands, without trimming or
    case folding; and two requests of one and the same quality, whatever
    string it is, share a key only if they have the same query. *)
Theorem search_cacheKey_injective_documented (req1 req2 : request) (q1 q2 : string) :
  req_q req1 = Some q1 ->
  req_q req2 = Some q2 ->
  search_cacheKey q1 (quality_of req1) = search_cacheKey q2 (quality_of req2) ->
  (documented_quality (quality_of req1) -> documented_quality (quality_of req2) ->
   q1 = q2 /\ quality_of req1 = quality_of req2)
  /\ (quality_of req1 = quality_of req2 -> q1 = q2).
Proof.
  intros _ _ Hkey. split.
  - intros Hd1 Hd2.
    exact (proj1 (search_cacheKey_inj q1 q2 _ _) Hd1 Hd2 Hkey).
  - intros Hsame. rewrite <- Hsame in Hkey.
    exact (proj2 (search_cacheKey_inj q1 q2 (quality_of req1) (quality_of req1)) Hkey).
Qed.

Lemma search_cacheKey_injective_documented_witness :
  "cats" = "cats"
  /\ quality_of (Request (Some "cats") None)
       = quality_of (Request (Some "cats") (Some "low")).
Proof.
  destruct (search_cacheKey_injective_documented
              (Request (Some "cats") None) (Request (Some "cats") (Some "low"))
              "cats" "cats" eq_refl eq_refl eq_refl) as (Hinj & _).
  exact (Hinj (or_introl eq_refl) (or_introl eq_refl)).
Defined.

Example search_cacheKey_tells_case_and_quality :
  search_cacheKey "Cats" "low" <> search_cacheKey "cats" "low"
  /\ search_cacheKey "cats" "low" <> search_cacheKey "cats" "high".
Proof.
  split; intros H.
  - destruct (proj1 (search_cacheKey_inj "Cats" "cats" "low" "low")
                (or_introl eq_refl) (or_introl eq_refl) H) as [Hq _].
    discriminate Hq.
  - destruct (proj1 (search_cacheKey_inj "cats" "cats" "low" "high")
                (or_introl eq_refl) (or_intror eq_refl) H) as [_ Hq].
    discriminate Hq.
Qed.

Lemma has_video_list (d : value) (l : list value) :
  get "videos" (get "data" d) = VArr l -> noVideoList d = false.
Proof.
  intros H. unfold noVideoList, get_opt. rewrite H.
  destruct d; try discriminate H.
  cbn [nullish]. destruct (get "data" (VObj props)); try discriminate H.
  reflexivity.
Qed.

Lemma length_filter_map {A B} (f : A -> B) (P : B -> Prop)
    `{forall y, Decision (P y)} (l : list A) :
  length (filter P (map f l)) = length (filter (fun x => P (f x)) l).
Proof.
  induction l as [|x l IH]; [reflexivity|]. cbn [map].
  destruct (decide (P (f x))) as [Hx|Hx].
  - rewrite !filter_cons_True by exact Hx. simpl. rewrite IH. reflexivity.
  - rewrite !filter_cons_False by exact Hx. exact IH.
Qed.

(** X14.  Whenever upstream delivers an array of records, the search stores
    and sends an answer whose [count] is the number of upstream records with
    a truthy [play], which is at most the length of the upstream array; an
    empty array is stored like any other, with [count] 0. *)
Theorem count_is_playable_records (NODE_ENV : option string)
    (net : string -> list (string * value) -> upstream_outcome)
    (req : request) (q : string) (w w1 : world) (cached : value)
    (ms : Z) (d : value) (l : list value) :
  valid_query req q ->
  getCached (search_cacheKey q (quality_of req)) w = (inr cached, w1) ->
  truthy cached = false ->
  net search_url (search_params q (quality_of req)) = Responds ms d ->
  get "videos" (get "data" d) = VArr l ->
  Forall (fun v => nullish v = false) l ->
  exists videos w',
    search NODE_ENV net req w = (inr (Response 200 (search_result q videos)), w')
    /\ cache w' !! search_cacheKey q (quality_of req)
         = Some (Item (search_result q videos) (clock w1 + ms + 300000))
    /\ get "count" (search_result q videos) = VNum (Z.of_nat (length videos))
    /\ length videos
         = length (filter (fun v => truthy (get "play" v) = true) l)
    /\ (length videos <= length l)%nat
    /\ (l = [] -> videos = []).
Proof.
  intros Hv Hget Hmiss Hnet Hl Hok.
  pose proof (normalizeVideos_search l Hok) as Hnorm. rewrite <- Hl in Hnorm.
  eexists _, _. split.
  { apply (search_miss_stored NODE_ENV net req q w w1 cached ms d); try assumption.
    - eapply has_video_list. exact Hl.
    - exact Hnorm. }
  split; [apply lookup_insert_eq|]. split; [reflexivity|].
  assert (Hlen : length (filter (fun r => hasVideoUrl r = true) (map searchFields l))
                 = length (filter (fun v => truthy (get "play" v) = true) l)).
  { rewrite (length_filter_map searchFields (fun r => hasVideoUrl r = true)).
    reflexivity. }
  split; [exact Hlen|]. split.
  - rewrite Hlen. apply length_filter.
  - intros ->. reflexivity.
Qed.

Lemma count_is_playable_records_witness :
  exists w',
    search None net_empty_array (Request (Some "cats") None) world0
      = (inr (Response 200 (search_result "cats" [])), w')
    /\ cache w' !! "search:cats:low" = Some (Item (search_result "cats" []) 300120).
Proof.
  destruct (count_is_playable_records None net_empty_array
              (Request (Some "cats") None) "cats" world0
              (emit (CacheGet (search_cacheKey "cats" "low")) world0) VNull 120
              (VObj [("data", VObj [("videos", VArr [])])]) [])
    as (videos & w' & Hs & Hc & _ & _ & _ & Hnil).
  - split; [reflexivity | split; [discriminate | simpl; lia]].
  - reflexivity.
  - reflexivity.
  - reflexivity.
  - reflexivity.
  - constructor.
  - rewrite (Hnil eq_refl) in Hs, Hc. exists w'. split; [exact Hs | exact Hc].
Defined.

Lemma health_spec (toISOString : Z -> string) (w : world) :
  health toISOString w =
    (inr (Response 200
            (VObj [ ("status", VNum 200);
                    ("cache_size", VNum (Z.of_nat (size (cache w))));
                    ("timestamp", VStr (toISOString (clock w)));
                    ("message", VStr "OK");
                    ("comics_dir", VStr "/comics") ])), w).
Proof. reflexivity. Qed.

(** The number [/api/health] reports in a world. *)
Lemma health_cache_size (toISOString : Z -> string) (w : world) :
  exists body,
    health toISOString w = (inr (Response 200 body), w)
    /\ get "cache_size" body = VNum (Z.of_nat (size (cache w))).
Proof. rewrite health_spec. eexists. split; reflexivity. Qed.

(** X7.  [/api/health] reports the number of entries in the cache, expired
    ones included, and changes nothing.  An entry whose expiry has passed is
    still counted; it leaves the count only when its key is read, which
    lowers the count by one, and storing again under its key leaves the count
    as it is. *)
Theorem health_counts_stale_entries (toISOString : Z -> string)
    (w : world) (k : string) (it : item) :
  cache w !! k = Some it ->
  expiry it < clock w ->
  (exists body,
     health toISOString w = (inr (Response 200 body), w)
     /\ get "cache_size" body = VNum (Z.of_nat (size (cache w)))
     /\ 1 <= Z.of_nat (size (cache w)))
  /\ (exists body,
        health toISOString (snd (getCached k w))
          = (inr (Response 200 body), snd (getCached k w))
        /\ get "cache_size" body = VNum (Z.of_nat (size (cache w)) - 1))
  /\ (forall v, exists body,
        health toISOString (snd (setCache k v w))
          = (inr (Response 200 body), snd (setCache k v w))
        /\ get "cache_size" body = VNum (Z.of_nat (size (cache w)))).
Proof.
  intros Hk Hstale.
  assert (Hpos : (1 <= size (cache w))%nat).
  { assert (size (cache w) <> 0%nat); [| lia].
    apply (map_size_ne_0_lookup_2 _ k). rewrite Hk. eauto. }
  split; [| split].
  - destruct (health_cache_size toISOString w) as (body & Hh & Hsize).
    exists body. split; [exact Hh|]. split; [exact Hsize | lia].
  - destruct (health_cache_size toISOString (snd (getCached k w)))
      as (body & Hh & Hsize).
    exists body. split; [exact Hh|]. rewrite Hsize.
    rewrite (getCached_stale k it w Hk Hstale). simpl.
    rewrite map_size_delete_Some by (rewrite Hk; eauto). f_equal. lia.
  - intros v.
    destruct (health_cache_size toISOString (snd (setCache k v w)))
      as (body & Hh & Hsize).
    exists body. split; [exact Hh|]. rewrite Hsize, setCache_spec. simpl.
    rewrite map_size_insert_Some by (rewrite Hk; eauto). reflexivity.
Qed.

Lemma health_counts_stale_entries_witness :
  let w := at_time 900000 (snd (setCache "trending" (trending_result []) world0)) in
  exists body,
    health (fun _ => "1970-01-01T00:15:00.000Z") w = (inr (Response 200 body), w)
    /\ get "cache_size" body = VNum 1.
Proof.
  intros w.
  destruct (health_counts_stale_entries (fun _ => "1970-01-01T00:15:00.000Z") w
              "trending" (Item (trending_result []) 300000) eq_refl)
    as ((body & Hh & Hsize & _) & _).
  - simpl. lia.
  - exists body. split; [exact Hh | exact Hsize].
Defined.

(** * Further properties of the library tree builder *)

Lemma slashes_no_backslash (s : string) : no_backslash (slashes s).
Proof.
  unfold no_backslash. induction s as [|c s IH]; cbn [slashes String.list_ascii_of_string].
  - intros H. inversion H.
  - intros H. apply elem_of_cons in H as [H|H]; [| exact (IH H)].
    destruct (Ascii.eqb_spec c "\"%char) as [->|Hne]; [discriminate H|].
    apply Hne. symmetry. exact H.
Qed.

Lemma slashes_append (a b : string) : slashes (a +:+ b) = slashes a +:+ slashes b.
Proof.
  induction a as [|c a IH]; [reflexivity|].
  change (String (if Ascii.eqb c "\"%char then "/"%char else c) (slashes (a +:+ b))
          = String (if Ascii.eqb c "\"%char then "/"%char else c)
              (slashes a +:+ slashes b)).
  f_equal. exact IH.
Qed.

Lemma filter_visible_idem {A} (l : list (string * A)) :
  filter (fun e => visible (fst e)) (filter (fun e => visible (fst e)) l)
  = filter (fun e => visible (fst e)) l.
Proof.
  induction l as [|e l IH]; [reflexivity|].
  destruct (decide (visible (fst e))) as [Hv|Hv].
  - rewrite (filter_cons_True _ e l) by exact Hv.
    rewrite filter_cons_True by exact Hv. rewrite IH. reflexivity.
  - rewrite (filter_cons_False _ e l) by exact Hv. exact IH.
Qed.

Section TreeInvariants.

Variable localeCompare : string -> string -> Z.
Variable sep : string.
Variable scandir_error : string -> exn.

Local Abbreviation readTree := (readComicsTree localeCompare sep scandir_error).

(** What the callback returns for an entry. *)
Lemma readEntry_node (baseUrl relPath name : string) (n : fsnode)
    (recurse : string -> M (list LibraryNode)) (w0 w1 : world) (node : LibraryNode) :
  readEntry sep baseUrl relPath (name, (n, recurse)) w0 = (inr node, w1) ->
  node_name node = name
  /\ node_path node = slashes (entry_rel sep relPath name)
  /\ url_of_path baseUrl node.
Proof.
  unfold readEntry, bind. fold (entry_rel sep relPath name).
  destruct n as [size mtime|entries|err|err]; simpl; intros H; try discriminate.
  - inversion H; subst. repeat split.
  - destruct (recurse _ w0) as [[e|ch] w'] eqn:Hr; [discriminate|].
    inversion H; subst. repeat split.
  - destruct (recurse _ w0) as [[e|ch] w'] eqn:Hr; [discriminate|].
    inversion H; subst. repeat split.
Qed.

(** A property that the callback gives every node it makes for a visible
    entry holds of every node of the tree. *)
Lemma readComicsTree_tree_Forall (baseUrl : string) (Q : LibraryNode -> Prop) :
  (forall relPath name n recurse w0 w1 node,
     visible name ->
     readEntry sep baseUrl relPath (name, (n, recurse)) w0 = (inr node, w1) ->
     Q node) ->
  forall absDir relPath w items w',
    readTree baseUrl relPath absDir w = (inr items, w') ->
    tree_Forall Q items.
Proof.
  intros HQ absDir.
  induction absDir as [size mtime|entries IH|err|err] using fsnode_nested_ind;
    intros relPath w items w' H;
    try (rewrite readComicsTree_unlistable in H by discriminate;
         inversion H; constructor;
         [constructor | intros name path children Hin; inversion Hin]).
  rewrite readComicsTree_dir in H. unfold try_catch, bind in H.
  destruct (mapM _ _ w) as [[e|nodes] w1] eqn:Hm.
  { inversion H. constructor;
      [constructor | intros name path children Hin; inversion Hin]. }
  inversion H; subst; clear H. apply mapM_inr in Hm. constructor.
  - apply Forall_forall. intros node Hin.
    rewrite (js_sort_perm (compareNodes localeCompare) nodes) in Hin.
    destruct (Forall2_elem_of_r _ _ _ _ Hm Hin) as (x & Hx & w0 & w2 & Hread).
    apply list_elem_of_filter in Hx as [Hv _].
    destruct x as [name [n recurse]]. exact (HQ _ _ _ _ _ _ _ Hv Hread).
  - intros name path children Hin.
    rewrite (js_sort_perm (compareNodes localeCompare) nodes) in Hin.
    destruct (Forall2_elem_of_r _ _ _ _ Hm Hin) as (x & Hx & w0 & w2 & Hread).
    apply list_elem_of_filter in Hx as [_ Hx].
    unfold with_calls in Hx. apply list_elem_of_In, in_map_iff in Hx.
    destruct Hx as (en & <- & Hen).
    apply readEntry_dir_inv in Hread as (rel & Hrec & _ & _).
    rewrite Forall_forall in IH.
    exact (IH en (proj2 (list_elem_of_In _ _) Hen) rel w0 children w2 Hrec).
Qed.

End TreeInvariants.

(** X8.  Entries whose name starts with a dot are ignored altogether: the
    builder returns the same tree and the same console lines as for the
    listing without them, so a hidden entry that cannot be stat-ed does no
    harm, and no node of the tree, at any depth, has such a name. *)
Theorem hidden_entries_ignored (localeCompare : string -> string -> Z)
    (sep : string) (scandir_error : string -> exn) (baseUrl relPath : string) (w : world) :
  (forall entries,
     readComicsTree localeCompare sep scandir_error baseUrl relPath (FsDir entries) w
     = readComicsTree localeCompare sep scandir_error baseUrl relPath
         (FsDir (filter (fun e => visible (fst e)) entries)) w)
  /\ (forall absDir items w',
        readComicsTree localeCompare sep scandir_error baseUrl relPath absDir w = (inr items, w') ->
        tree_Forall (fun n => visible (node_name n)) items).
Proof.
  split.
  - intros entries. rewrite !readComicsTree_dir. unfold try_catch, bind.
    rewrite !with_calls_filter, filter_visible_idem. reflexivity.
  - intros absDir items w' H.
    eapply (readComicsTree_tree_Forall localeCompare sep scandir_error baseUrl); [| exact H].
    intros rel name n recurse w0 w1 node Hv Hread.
    apply readEntry_node in Hread as (-> & _). exact Hv.
Qed.

Lemma hidden_entries_ignored_witness :
  exists items w',
    readComicsTree first_byte_compare "/" ENOTDIR_at "/comics" ""
      (FsDir [ (".git", FsNoStat EACCES); ("one.png", FsFile 10 1) ]) world0
      = (inr items, w')
    /\ tree_Forall (fun n => visible (node_name n)) items
    /\ items = [FileNode "one.png" "one.png" 10 1 "/comics/one.png"].
Proof.
  destruct (hidden_entries_ignored first_byte_compare "/" ENOTDIR_at "/comics" "" world0)
    as (_ & Hnames).
  eexists _, _. split; [vm_compute; reflexivity|]. split; [| reflexivity].
  apply (Hnames (FsDir [ (".git", FsNoStat EACCES); ("one.png", FsFile 10 1) ])
           _ world0).
  vm_compute. reflexivity.
Defined.

(** X9.  In every node of the tree, at every depth, the [path] holds no
    backslash, and the [url] of a file is [baseUrl], a slash and that
    [path]. *)
Theorem node_urls_follow_paths (localeCompare : string -> string -> Z)
    (sep : string) (scandir_error : string -> exn) (baseUrl relPath : string) (absDir : fsnode) (w w' : world)
    (items : list LibraryNode) :
  readComicsTree localeCompare sep scandir_error baseUrl relPath absDir w = (inr items, w') ->
  tree_Forall (fun n => no_backslash (node_path n) /\ url_of_path baseUrl n) items.
Proof.
  intros H.
  eapply (readComicsTree_tree_Forall localeCompare sep scandir_error baseUrl); [| exact H].
  intros rel name n recurse w0 w1 node _ Hread.
  apply readEntry_node in Hread as (_ & -> & Hurl).
  split; [apply slashes_no_backslash | exact Hurl].
Qed.

Lemma node_urls_follow_paths_witness :
  tree_Forall (fun n => no_backslash (node_path n) /\ url_of_path "/comics" n)
    [ DirNode "vol\1" "vol/1" [FileNode "p.png" "vol/1/p.png" 10 1 "/comics/vol/1/p.png"] ].
Proof.
  apply (node_urls_follow_paths first_byte_compare "/" ENOTDIR_at "/comics" ""
           (FsDir [("vol\1", FsDir [("p.png", FsFile 10 1)])]) world0 world0).
  vm_compute. reflexivity.
Defined.



Lemma entry_rel_child_path (sep relPath name : string) :
  slashes sep = "/" ->
  slashes (entry_rel sep relPath name) = child_path (slashes relPath) name.
Proof.
  intros Hsep. unfold entry_rel, child_path, path_join.
  destruct relPath as [|c r]; [reflexivity|].
  cbn [String.eqb negb]. rewrite !slashes_append, Hsep. reflexivity.
Qed.

Lemma readEntry_dir_eq (sep baseUrl relPath name : string) (n : fsnode)
    (recurse : string -> M (list LibraryNode)) (w : world) :
  is_directory n ->
  readEntry sep baseUrl relPath (name, (n, recurse)) w =
    match recurse (entry_rel sep relPath name) w with
    | (inr children, w') =>
        (inr (DirNode name (slashes (entry_rel sep relPath name)) children), w')
    | (inl e, w') => (inl e, w')
    end.
Proof.
  intros Hdir. unfold readEntry, bind. fold (entry_rel sep relPath name).
  destruct n; try contradiction; reflexivity.
Qed.

Section Separator.

Variable localeCompare : string -> string -> Z.
Variables sep1 sep2 : string.
Variable scandir_error : string -> exn.
Hypothesis same_slash : slashes sep1 = slashes sep2.


End Separator.


Section Paths.

Variable localeCompare : string -> string -> Z.
Variable sep : string.
Variable scandir_error : string -> exn.
Hypothesis sep_slash : slashes sep = "/".

Lemma readEntry_dir_path (baseUrl relPath name : string) (n : fsnode)
    (recurse : string -> M (list LibraryNode)) (w0 w1 : world)
    (nm path : string) (children : list LibraryNode) :
  readEntry sep baseUrl relPath (name, (n, recurse)) w0
    = (inr (DirNode nm path children), w1) ->
  path = slashes (entry_rel sep relPath name)
  /\ recurse (entry_rel sep relPath name) w0 = (inr children, w1).
Proof.
  unfold readEntry, bind. fold (entry_rel sep relPath name).
  destruct n as [size mtime|entries|err|err]; simpl; intros H; try discriminate.
  - destruct (recurse _ w0) as [[e|ch] w'] eqn:Hr; [discriminate|].
    inversion H; subst. split; reflexivity.
  - destruct (recurse _ w0) as [[e|ch] w'] eqn:Hr; [discriminate|].
    inversion H; subst. split; reflexivity.
Qed.

Lemma readComicsTree_paths (absDir : fsnode) :
  forall baseUrl relPath w items w',
    readComicsTree localeCompare sep scandir_error baseUrl relPath absDir w = (inr items, w') ->
    paths_from (slashes relPath) items.
Proof.
  induction absDir as [size mtime|entries IH|err|err] using fsnode_nested_ind;
    intros baseUrl relPath w items w' H;
    try (rewrite readComicsTree_unlistable in H by discriminate;
         inversion H; constructor;
         [constructor | intros name path children Hin; inversion Hin]).
  rewrite readComicsTree_dir in H. unfold try_catch, bind in H.
  destruct (mapM _ _ w) as [[e|nodes] w1] eqn:Hm.
  { inversion H. constructor;
      [constructor | intros name path children Hin; inversion Hin]. }
  inversion H; subst; clear H. apply mapM_inr in Hm. constructor.
  - apply Forall_forall. intros node Hin.
    rewrite (js_sort_perm (compareNodes localeCompare) nodes) in Hin.
    destruct (Forall2_elem_of_r _ _ _ _ Hm Hin) as (x & _ & w0 & w2 & Hread).
    destruct x as [name [n recurse]].
    apply readEntry_node in Hread as (-> & -> & _).
    apply entry_rel_child_path, sep_slash.
  - intros name path children Hin.
    rewrite (js_sort_perm (compareNodes localeCompare) nodes) in Hin.
    destruct (Forall2_elem_of_r _ _ _ _ Hm Hin) as (x & Hx & w0 & w2 & Hread).
    apply list_elem_of_filter in Hx as [_ Hx].
    unfold with_calls in Hx. apply list_elem_of_In, in_map_iff in Hx.
    destruct Hx as (en & <- & Hen).
    apply readEntry_dir_path in Hread as (-> & Hrec).
    rewrite Forall_forall in IH.
    exact (IH en (proj2 (list_elem_of_In _ _) Hen) baseUrl _ w0 children w2 Hrec).
Qed.

End Paths.

(** X15.  With the separator of either host, the [path] of a node is the
    chain of names from the root joined by slashes: at the root it is the
    name of the entry, below a directory it is that directory's [path], a
    slash and the name, a backslash in a name being turned into a slash. *)
Theorem paths_chain_names (localeCompare : string -> string -> Z)
    (sep : string) (scandir_error : string -> exn) (baseUrl : string) (absDir : fsnode) (w w' : world)
    (items : list LibraryNode) :
  sep = "/" \/ sep = "\" ->
  readComicsTree localeCompare sep scandir_error baseUrl "" absDir w = (inr items, w') ->
  paths_from "" items.
Proof.
  intros Hsep H.
  apply (readComicsTree_paths localeCompare sep scandir_error) in H; [exact H|].
  destruct Hsep as [-> | ->]; reflexivity.
Qed.

Lemma paths_chain_names_witness :
  paths_from ""
    [ DirNode "vol1" "vol1" [FileNode "p.png" "vol1/p.png" 10 1 "/comics/vol1/p.png"] ].
Proof.
  apply (paths_chain_names first_byte_compare "\" ENOTDIR_at "/comics"
           (FsDir [("vol1", FsDir [("p.png", FsFile 10 1)])]) world0 world0).
  - right. reflexivity.
  - vm_compute. reflexivity.
Defined.

Lemma mapM_app_throw {A B} (f : A -> M B) (l1 l2 : list A) (x : A)
    (ys : list B) (e : exn) (w w1 w2 : world) :
  mapM f l1 w = (inr ys, w1) -> f x w1 = (inl e, w2) ->
  mapM f (l1 ++ x :: l2) w = (inl e, w2).
Proof.
  revert ys w. induction l1 as [|a l1 IH]; intros ys w Hl Hx.
  - inversion Hl; subst. simpl. unfold bind. rewrite Hx. reflexivity.
  - simpl in Hl. unfold bind in Hl.
    destruct (f a w) as [[e'|y] w'] eqn:Ha; [discriminate|].
    destruct (mapM f l1 w') as [[e'|ys'] w''] eqn:Hl1; [discriminate|].
    inversion Hl; subst.
    simpl. unfold bind. rewrite Ha, (IH ys' w' Hl1 Hx). reflexivity.
Qed.

(** X11.  One entry that cannot be stat-ed empties the listing of its whole
    directory.  If the visible entries before it can be stat-ed and it
    cannot, the builder returns the empty sequence for that directory, so
    every sibling is missing from the tree, those already read included, and
    the error of that entry is on the console; apart from the console the
    world is as before. *)
Theorem stat_failure_empties_listing (localeCompare : string -> string -> Z)
    (sep : string) (scandir_error : string -> exn)
    (baseUrl relPath name : string) (err : exn)
    (before after : list (string * fsnode)) (w : world) :
  visible name ->
  (forall name' n, (name', n) ∈ before -> visible name' -> statable n) ->
  exists w',
    readComicsTree localeCompare sep scandir_error baseUrl relPath
      (FsDir (before ++ (name, FsNoStat err) :: after)) w = (inr [], w')
    /\ logged w w' (ConsoleError ("readComicsTree error: " +:+ err_message err))
    /\ only_logs w w'.
Proof.
  intros Hv Hbefore.
  assert (Hvis : Forall (fun e => statable (snd e))
                   (filter (fun e => visible (fst e)) before)).
  { apply Forall_forall. intros [name' n] Hin.
    apply list_elem_of_filter in Hin as [Hv' Hin]. exact (Hbefore name' n Hin Hv'). }
  destruct (readEntries_statable localeCompare sep scandir_error baseUrl relPath _ Hvis w)
    as (nodes & w1 & Hnodes & _ & Hlogs & _).
  exists (emit (ConsoleError ("readComicsTree error: " +:+ err_message err)) w1).
  split; [| split].
  - rewrite readComicsTree_dir. unfold try_catch, bind.
    rewrite with_calls_filter, filter_app, filter_cons_True by exact Hv.
    unfold with_calls. rewrite map_app. cbn [map fst snd].
    fold (with_calls localeCompare sep scandir_error baseUrl
            (filter (fun e => visible (fst e)) before)).
    rewrite (mapM_app_throw _ _ _ _ nodes err w w1 w1 Hnodes
               (readEntry_nostat sep baseUrl relPath name err _ w1)).
    reflexivity.
  - eapply logged_widen; [exact Hlogs | apply logged_emit | apply only_logs_refl].
  - eapply only_logs_trans; [exact Hlogs | apply only_logs_emit].
Qed.

Lemma stat_failure_empties_listing_witness :
  exists w',
    readComicsTree first_byte_compare "/" ENOTDIR_at "/comics" ""
      (FsDir [ ("one.png", FsFile 10 1); ("gone", FsNoStat ENOENT);
               ("two.png", FsFile 20 2) ]) world0 = (inr [], w').
Proof.
  destruct (stat_failure_empties_listing first_byte_compare "/" ENOTDIR_at "/comics" "" "gone"
              ENOENT [("one.png", FsFile 10 1)] [("two.png", FsFile 20 2)] world0)
    as (w' & Hread & _).
  - reflexivity.
  - intros name' n Hin _. apply elem_of_cons in Hin as [Heq|Hin].
    + inversion Heq; subst. exact I.
    + inversion Hin.
  - exists w'. exact Hread.
Defined.

(** The health route of [src/unnamed/part_000] answers as that of
    [src/api/index.js] without [comics_dir]. *)
Lemma health_without_library_spec (toISOString : Z -> string) (w : world) :
  exists body body',
    health toISOString w = (inr (Response 200 body), w)
    /\ health_without_library toISOString w = (inr (Response 200 body'), w)
    /\ get "comics_dir" body' = VUndef
    /\ forall k, k <> "comics_dir" -> get k body' = get k body.
Proof.
  eexists _, _. split; [reflexivity|]. split; [reflexivity|]. split; [reflexivity|].
  intros k Hk. cbn [get lookup_prop].
  repeat (destruct (String.eqb_spec k _) as [->|_]; [reflexivity|]).
  destruct (String.eqb_spec k "comics_dir"); [contradiction | reflexivity].
Qed.

Lemma sorted_perm_unique {A} (R : A -> A -> Prop) (l1 l2 : list A) :
  (forall x1 x2, x1 ∈ l1 -> x2 ∈ l2 -> R x1 x2 -> R x2 x1 -> x1 = x2) ->
  StronglySorted R l1 -> StronglySorted R l2 -> l1 ≡ₚ l2 -> l1 = l2.
Proof.
  intros Hasym Hl1. revert l2 Hasym.
  induction Hl1 as [|x1 l1 Hs1 IH Hx1]; intros l2 Hasym Hl2 E.
  - symmetry. apply Permutation_nil. exact E.
  - destruct Hl2 as [|x2 l2 Hs2 Hx2].
    { symmetry in E. apply Permutation_nil in E. discriminate E. }
    assert (x1 = x2) as <-.
    { rewrite Forall_forall in Hx1, Hx2.
      assert (Hin2 : x2 ∈ x1 :: l1) by (rewrite E; left).
      assert (Hin1 : x1 ∈ x2 :: l2) by (rewrite <- E; left).
      apply elem_of_cons in Hin2 as [->|Hin2]; [reflexivity|].
      apply elem_of_cons in Hin1 as [->|Hin1]; [reflexivity|].
      apply Hasym; [left | left | apply Hx1, Hin2 | apply Hx2, Hin1]. }
    f_equal. apply IH.
    + intros y1 y2 Hy1 Hy2. apply Hasym; right; assumption.
    + exact Hs2.
    + exact (Permutation_cons_inv E).
Qed.

Lemma js_map_of_Forall2 {A B} (f : A -> result B) (l : list A) (ys : list B) :
  Forall2 (fun x y => f x = inr y) l ys -> js_map f l = inr ys.
Proof.
  induction 1 as [|x y l ys Hxy _ IH]; simpl; [reflexivity|].
  rewrite Hxy, IH. reflexivity.
Qed.

Lemma Forall2_perm_l {A B} (R : A -> B -> Prop) (l l' : list A) :
  l ≡ₚ l' ->
  forall ys, Forall2 R l ys -> exists ys', Forall2 R l' ys' /\ ys ≡ₚ ys'.
Proof.
  induction 1 as [|x l l' _ IH|x y l|l l' l'' _ IH1 _ IH2]; intros ys Hys.
  - inversion Hys; subst. exists []. split; constructor.
  - inversion Hys as [|? y' ? ys0 Hxy Hrest]; subst.
    destruct (IH ys0 Hrest) as (ys' & Hys' & Hp).
    exists (y' :: ys'). split; [constructor; assumption | constructor; exact Hp].
  - inversion Hys as [|? b1 ? ys1 H1 Hrest1]; subst.
    inversion Hrest1 as [|? b2 ? ys2 H2 Hrest2]; subst.
    exists (b2 :: b1 :: ys2). split; [repeat constructor; assumption|].
    apply Permutation_swap.
  - destruct (IH1 ys Hys) as (ys' & Hys' & Hp1).
    destruct (IH2 ys' Hys') as (ys'' & Hys'' & Hp2).
    exists ys''. split; [exact Hys'' | etransitivity; eassumption].
Qed.

Lemma mapM_fst_indep {A B} (f : A -> M B) (l : list A) :
  (forall x, x ∈ l -> forall w w', fst (f x w) = fst (f x w')) ->
  forall w w', fst (mapM f l w) = fst (mapM f l w').
Proof.
  induction l as [|x l IH]; intros Hf w w'; [reflexivity|].
  simpl. unfold bind.
  pose proof (Hf x ltac:(left) w w') as Hx.
  destruct (f x w) as [[e|y] w1], (f x w') as [[e'|y'] w1']; simpl in Hx;
    try discriminate Hx; [simpl; congruence|].
  inversion Hx; subst y'.
  assert (IHl : fst (mapM f l w1) = fst (mapM f l w1')).
  { apply IH. intros x' Hx'. apply Hf. right. exact Hx'. }
  destruct (mapM f l w1) as [[e|ys] w2], (mapM f l w1') as [[e'|ys'] w2'];
    simpl in IHl; try discriminate IHl; inversion IHl; reflexivity.
Qed.

Section ListingOrder.

Variable localeCompare : string -> string -> Z.
Variable sep : string.
Variable scandir_error : string -> exn.

Local Abbreviation readTree := (readComicsTree localeCompare sep scandir_error).

Lemma readEntry_fst_indep (baseUrl relPath name : string) (n : fsnode)
    (recurse : string -> M (list LibraryNode)) :
  (forall rel w w', fst (recurse rel w) = fst (recurse rel w')) ->
  forall w w',
    fst (readEntry sep baseUrl relPath (name, (n, recurse)) w)
    = fst (readEntry sep baseUrl relPath (name, (n, recurse)) w').
Proof.
  intros Hrec w w'. destruct n as [size mtime|entries|err|err];
    try reflexivity;
    rewrite !readEntry_dir_eq by exact I;
    pose proof (Hrec (entry_rel sep relPath name) w w') as H;
    destruct (recurse _ w) as [[e|ch] w1], (recurse _ w') as [[e'|ch'] w1'];
    simpl in H; try discriminate H; inversion H; reflexivity.
Qed.

(** The nodes returned do not depend on the world the builder starts in. *)
Lemma readComicsTree_fst_indep (absDir : fsnode) :
  forall baseUrl relPath w w',
    fst (readTree baseUrl relPath absDir w) = fst (readTree baseUrl relPath absDir w').
Proof.
  induction absDir as [size mtime|entries IH|err|err] using fsnode_nested_ind;
    intros baseUrl relPath w w';
    try (rewrite !readComicsTree_unlistable by discriminate; reflexivity).
  rewrite !readComicsTree_dir. unfold try_catch, bind.
  assert (Hm : fst (mapM (readEntry sep baseUrl relPath)
                      (filter (fun e => visible (fst e))
                         (with_calls localeCompare sep scandir_error baseUrl entries)) w)
               = fst (mapM (readEntry sep baseUrl relPath)
                        (filter (fun e => visible (fst e))
                           (with_calls localeCompare sep scandir_error baseUrl entries)) w')).
  { apply mapM_fst_indep. intros x Hx.
    apply list_elem_of_filter in Hx as [_ Hx].
    unfold with_calls in Hx. apply list_elem_of_In, in_map_iff in Hx.
    destruct Hx as (en & <- & Hen). apply readEntry_fst_indep.
    intros rel w0 w0'. rewrite Forall_forall in IH.
    apply (IH en (proj2 (list_elem_of_In _ _) Hen)). }
  destruct (mapM _ _ w) as [[e|nodes] w1], (mapM _ _ w') as [[e'|nodes'] w1'];
    simpl in Hm; try discriminate Hm; inversion Hm; reflexivity.
Qed.

Lemma mapM_entry_result (baseUrl relPath : string) (es : list (string * fsnode))
    (w : world) :
  fst (mapM (readEntry sep baseUrl relPath)
         (with_calls localeCompare sep scandir_error baseUrl es) w)
  = js_map (entry_result localeCompare sep scandir_error baseUrl relPath) es.
Proof.
  revert w. induction es as [|[name n] es IH]; intros w; [reflexivity|].
  unfold with_calls. cbn [map fst snd mapM js_map]. unfold bind.
  fold (with_calls localeCompare sep scandir_error baseUrl es).
  assert (Hx : fst (readEntry sep baseUrl relPath
                      (name, (n, fun rel => readTree baseUrl rel n)) w)
               = entry_result localeCompare sep scandir_error baseUrl relPath (name, n)).
  { unfold entry_result. apply readEntry_fst_indep.
    intros rel w0 w0'. apply readComicsTree_fst_indep. }
  rewrite <- Hx.
  destruct (readEntry sep baseUrl relPath _ w) as [[e|node] w1]; [reflexivity|].
  cbn [fst]. rewrite <- (IH w1).
  destruct (mapM _ _ w1) as [[e|nodes] w2]; reflexivity.
Qed.

(** The sequence returned for a directory, as a function of its listing. *)
Lemma readComicsTree_items (baseUrl relPath : string)
    (entries : list (string * fsnode)) (w : world) :
  fst (readTree baseUrl relPath (FsDir entries) w) =
    inr (match js_map (entry_result localeCompare sep scandir_error baseUrl relPath)
                 (filter (fun e => visible (fst e)) entries) with
         | inr nodes => js_sort (compareNodes localeCompare) nodes
         | inl _ => []
         end).
Proof.
  rewrite readComicsTree_dir. unfold try_catch, bind.
  rewrite with_calls_filter.
  rewrite <- (mapM_entry_result baseUrl relPath _ w).
  destruct (mapM _ _ w) as [[e|nodes] w1]; reflexivity.
Qed.

Lemma entry_result_name (baseUrl relPath : string) (e : string * fsnode)
    (node : LibraryNode) :
  entry_result localeCompare sep scandir_error baseUrl relPath e = inr node ->
  node_name node = fst e.
Proof.
  unfold entry_result. intros H.
  destruct (readEntry sep baseUrl relPath _ world0) as [r w1] eqn:Hread.
  simpl in H. subst r. apply readEntry_node in Hread as (Hname & _). exact Hname.
Qed.

End ListingOrder.

Lemma NoDup_fst_inj {A B} (l : list (A * B)) (e1 e2 : A * B) :
  NoDup (map fst l) -> e1 ∈ l -> e2 ∈ l -> fst e1 = fst e2 -> e1 = e2.
Proof.
  induction l as [|e l IH]; intros Hnd H1 H2 Heq; [inversion H1|].
  cbn [map] in Hnd. apply NoDup_cons in Hnd as [Hnot Hnd].
  assert (Hfst : forall x, x ∈ l -> fst x ∈ map fst l).
  { intros x Hx. apply list_elem_of_In, in_map, list_elem_of_In, Hx. }
  apply elem_of_cons in H1 as [->|H1]; apply elem_of_cons in H2 as [->|H2].
  - reflexivity.
  - destruct Hnot. rewrite Heq. apply Hfst, H2.
  - destruct Hnot. rewrite <- Heq. apply Hfst, H1.
  - apply IH; assumption.
Qed.

(** X16.  The order in which [readdirSync] lists a directory does not show
    in the result.  With [localeCompare] a consistent comparator that tells
    the names of the directory apart, two listings of the same entries in
    different orders give the same sequence of nodes. *)
Theorem listing_order_irrelevant (localeCompare : string -> string -> Z)
    (sep : string) (scandir_error : string -> exn) (baseUrl relPath : string) (entries entries' : list (string * fsnode))
    (w w' : world) :
  (forall a b, Z.sgn (localeCompare b a) = - Z.sgn (localeCompare a b)) ->
  (forall a b c, localeCompare a b <= 0 -> localeCompare b c <= 0 ->
                 localeCompare a c <= 0) ->
  entries ≡ₚ entries' ->
  NoDup (map fst entries) ->
  (forall a b, a ∈ map fst entries -> b ∈ map fst entries ->
               localeCompare a b = 0 -> a = b) ->
  fst (readComicsTree localeCompare sep scandir_error baseUrl relPath (FsDir entries) w)
  = fst (readComicsTree localeCompare sep scandir_error baseUrl relPath (FsDir entries') w').
Proof.
  intros Hflip Htrans Hperm Hnd Hdistinct.
  rewrite !readComicsTree_items. f_equal.
  assert (Hp : filter (fun e => visible (fst e)) entries
               ≡ₚ filter (fun e => visible (fst e)) entries')
    by (rewrite Hperm; reflexivity).
  destruct (js_map _ (filter _ entries)) as [e|nodes] eqn:H1;
    destruct (js_map _ (filter _ entries')) as [e'|nodes'] eqn:H2.
  - reflexivity.
  - apply js_map_Forall2 in H2.
    destruct (Forall2_perm_l _ _ _ (Permutation_sym Hp) _ H2) as (ys & Hys & _).
    apply js_map_of_Forall2 in Hys. congruence.
  - apply js_map_Forall2 in H1.
    destruct (Forall2_perm_l _ _ _ Hp _ H1) as (ys & Hys & _).
    apply js_map_of_Forall2 in Hys. congruence.
  - apply js_map_Forall2 in H1.
    destruct (Forall2_perm_l _ _ _ Hp _ H1) as (ys & Hys & Hnodes).
    pose proof (js_map_of_Forall2 _ _ _ Hys) as H2'.
    rewrite H2 in H2'. inversion H2'; subst ys; clear H2'.
    apply (sorted_perm_unique (not_after (compareNodes localeCompare))).
    + intros x1 x2 Hx1 Hx2 H12 H21.
      rewrite (js_sort_perm (compareNodes localeCompare) nodes) in Hx1.
      rewrite (js_sort_perm (compareNodes localeCompare) nodes'), <- Hnodes in Hx2.
      destruct (Forall2_elem_of_r _ _ _ _ H1 Hx1) as (e1 & He1 & Hr1).
      destruct (Forall2_elem_of_r _ _ _ _ H1 Hx2) as (e2 & He2 & Hr2).
      apply list_elem_of_filter in He1 as [_ He1].
      apply list_elem_of_filter in He2 as [_ He2].
      assert (Hname : node_name x1 = node_name x2).
      { assert (Hfst : forall x, x ∈ entries -> fst x ∈ map fst entries).
        { intros x Hx. apply list_elem_of_In, in_map, list_elem_of_In, Hx. }
        rewrite (entry_result_name _ _ _ _ _ _ _ Hr1),
          (entry_result_name _ _ _ _ _ _ _ Hr2).
        apply Hdistinct; [apply Hfst, He1 | apply Hfst, He2 |].
        pose proof (entry_result_name _ _ _ _ _ _ _ Hr1) as Hn1.
        pose proof (entry_result_name _ _ _ _ _ _ _ Hr2) as Hn2.
        rewrite <- Hn1, <- Hn2.
        pose proof (Hflip (node_name x1) (node_name x2)) as Hsgn.
        unfold not_after in H12, H21.
        destruct x1, x2; unfold compareNodes in H12, H21;
          cbn in H12, H21; cbn [node_name] in Hsgn |- *; lia. }
      assert (e1 = e2) as <-.
      { apply (NoDup_fst_inj entries); try assumption.
        rewrite <- (entry_result_name _ _ _ _ _ _ _ Hr1),
          <- (entry_result_name _ _ _ _ _ _ _ Hr2). exact Hname. }
      congruence.
    + apply js_sort_sorted; [apply compareNodes_flip | apply compareNodes_trans];
        assumption.
    + apply js_sort_sorted; [apply compareNodes_flip | apply compareNodes_trans];
        assumption.
    + rewrite !js_sort_perm. exact Hnodes.
Qed.

Lemma listing_order_irrelevant_witness :
  fst (readComicsTree first_byte_compare "/" ENOTDIR_at "/comics" ""
         (FsDir [("b.txt", FsFile 10 1); ("a.txt", FsFile 20 2)]) world0)
  = fst (readComicsTree first_byte_compare "/" ENOTDIR_at "/comics" ""
           (FsDir [("a.txt", FsFile 20 2); ("b.txt", FsFile 10 1)]) world0).
Proof.
  apply listing_order_irrelevant.
  - intros a b. unfold first_byte_compare. lia.
  - intros a b c. unfold first_byte_compare. lia.
  - apply Permutation_swap.
  - repeat constructor; [| intros H; inversion H].
    intros H. apply elem_of_cons in H as [H|H]; [discriminate H | inversion H].
  - intros a b Ha Hb Hab.
    cbn [map fst] in Ha, Hb.
    apply elem_of_cons in Ha as [->|Ha]; [| apply elem_of_cons in Ha as [->|Ha];
                                             [| inversion Ha]];
    (apply elem_of_cons in Hb as [->|Hb]; [| apply elem_of_cons in Hb as [->|Hb];
                                             [| inversion Hb]]);
    try reflexivity; vm_compute in Hab; discriminate Hab.
Defined.
